(** * aiohttp streams and payload registry: a shallow embedding

    The development follows [aiohttp/streams.py] and [aiohttp/payload.py].
    Python objects become records, methods become functions that take the
    object and the surrounding world (the event loop's futures, the protocol
    with its transport) and hand both back.  A coroutine is run up to its
    next [yield from]: it either returns, raises, or parks on a future with
    the frame needed to continue it later. *)

From Stdlib Require Import Strings.String.
From Stdlib Require Import ZArith List Bool Lia.
From Stdlib Require Import Init.Byte.
Import ListNotations.
Local Open Scope Z_scope.

Set Implicit Arguments.

(** ** Byte strings *)

Definition bytes : Type := list byte.

Definition len {A : Type} (l : list A) : Z := Z.of_nat (length l).

Definition newline : byte := x0a.

(** [b''.join(chunks)] *)
Definition join (chunks : list bytes) : bytes := concat chunks.

(** Python truthiness of a sequence: [if data], [while self._buffer]. *)
Definition truthy {A : Type} (l : list A) : bool :=
  match l with [] => false | _ :: _ => true end.

(** Normalisation of one slice bound against a sequence of length [n]:
    negative bounds count from the end, and everything is clamped. *)
Definition clamp_index (n i : Z) : Z :=
  if i <? 0 then Z.max 0 (i + n) else Z.min i n.

(** [data[start:stop]] *)
Definition slice (data : bytes) (start stop : Z) : bytes :=
  let i := clamp_index (len data) start in
  let j := clamp_index (len data) stop in
  firstn (Z.to_nat (j - i)) (skipn (Z.to_nat i) data).

(** [data[start:]] *)
Definition slice_from (data : bytes) (start : Z) : bytes :=
  skipn (Z.to_nat (clamp_index (len data) start)) data.

Fixpoint index_of (c : byte) (data : bytes) : option nat :=
  match data with
  | [] => None
  | x :: rest =>
      if Byte.eqb x c then Some O
      else match index_of c rest with
           | Some k => Some (S k)
           | None => None
           end
  end.

(** [data.find(c, start)] for a one-byte needle: the lowest index at or
    after [start], or [-1]. *)
Definition find (data : bytes) (c : byte) (start : Z) : Z :=
  let i := clamp_index (len data) start in
  match index_of c (skipn (Z.to_nat i) data) with
  | Some k => i + Z.of_nat k
  | None => -1
  end.

(** ** Exceptions *)

Inductive exn : Type :=
| RuntimeError (msg : string)
| AssertionError (msg : string)
| ValueError (msg : string)
| IncompleteReadError (partial : bytes) (expected : Z)
| IndexError
| AttributeError
| InvalidStateError
| CancelledError
| TimeoutError
| EofStream
| LookupError
| TransportError (code : nat).

(** What the specification calls a usage error: the two ways the module
    rejects a misuse of its API. *)
Definition is_usage_error (e : exn) : bool :=
  match e with
  | RuntimeError _ | AssertionError _ => true
  | _ => false
  end.

(** ** The event loop's futures

    A future is shared between the object that stores it in [_waiter] and
    the coroutine parked on it, so futures live in a store and are named by
    their position in it. *)

Inductive future : Type :=
| Pending
| Cancelled
| Result (v : bool)
| Failed (e : exn).

Definition fut : Type := nat.

(** ** The protocol and its transport *)

Inductive transport_call : Type := pause_reading | resume_reading.

(** How the transport answers [pause_reading()] / [resume_reading()]:
    [protocol.transport] may be [None] (the attribute lookup fails with
    [AttributeError] and nothing is called), the transport may raise
    [NotImplementedError], or it may do what it is asked. *)
Inductive transport_kind : Type := NoTransport | Unsupported | Supported.

Record Protocol : Type := mkProtocol {
  _reading_paused : bool;
  transport : transport_kind
}.

Record World : Type := mkWorld {
  futures : list future;
  protocol : Protocol;
  calls : list transport_call   (* calls received by the transport, oldest first *)
}.

Definition set_futures (fs : list future) (w : World) : World :=
  mkWorld fs (protocol w) (calls w).

Definition set_reading_paused (v : bool) (w : World) : World :=
  mkWorld (futures w) (mkProtocol v (transport (protocol w))) (calls w).

(** [helpers.create_future(loop)] *)
Definition create_future (w : World) : fut * World :=
  (length (futures w), set_futures (futures w ++ [Pending]) w).

Definition future_state (w : World) (f : fut) : option future :=
  nth_error (futures w) f.

Definition cancelled (w : World) (f : fut) : bool :=
  match future_state w f with Some Cancelled => true | _ => false end.

Definition done (w : World) (f : fut) : bool :=
  match future_state w f with
  | Some Pending | None => false
  | Some _ => true
  end.

Fixpoint update {A : Type} (l : list A) (i : nat) (x : A) : list A :=
  match l, i with
  | [], _ => []
  | _ :: rest, O => x :: rest
  | y :: rest, S i' => y :: update rest i' x
  end.

(** [fut.set_result(v)] and [fut.set_exception(e)]: only a pending future
    accepts an outcome, anything else is [InvalidStateError] ([None]). *)
Definition resolve (f : fut) (r : future) (w : World) : option World :=
  match future_state w f with
  | Some Pending => Some (set_futures (update (futures w) f r) w)
  | _ => None
  end.

Definition set_result (f : fut) (v : bool) (w : World) : option World :=
  resolve f (Result v) w.

Definition fut_set_exception (f : fut) (e : exn) (w : World) : option World :=
  resolve f (Failed e) w.

(** Cancelling the task parked on [f] cancels [f]. *)
Definition cancel (f : fut) (w : World) : World :=
  match resolve f Cancelled w with Some w' => w' | None => w end.

(** One guarded call on the transport, as in
    [try: transport.m() except (AttributeError, NotImplementedError): pass
     else: ...]; the boolean tells whether the [else] branch runs. *)
Definition try_call (c : transport_call) (w : World) : bool * World :=
  match transport (protocol w) with
  | NoTransport => (false, w)
  | Unsupported => (false, mkWorld (futures w) (protocol w) (calls w ++ [c]))
  | Supported => (true, mkWorld (futures w) (protocol w) (calls w ++ [c]))
  end.


(** A world with no futures and a transport that is not paused. *)
Definition idle_world : World := mkWorld [] (mkProtocol false Supported) [].

(** The world once future [f] has been given the outcome [r]. *)
Definition resolved (f : fut) (r : future) (w : World) : World :=
  set_futures (update (futures w) f r) w.



(** * StreamWriter: the write lease *)

Module StreamWriter.

(** Callbacks are opaque to the writer; the model names them and records
    each invocation with the argument that was passed. *)
Definition callback : Type := nat.

Definition transport_handle : Type := nat.

Inductive argument : Type :=
| the_transport (tr : transport_handle)   (* [self.transport] *)
| the_writer.                             (* [self] *)

Record t : Type := mk {
  _waiters : list callback;
  available : bool;
  transport : transport_handle;
  invoked : list (callback * argument)    (* invocations so far, oldest first *)
}.

Definition __init__ (tr : transport_handle) : t := mk [] true tr [].

Definition acquire (cb : callback) (self : t) : t :=
  if available self then
    mk (_waiters self) false (transport self)
       (invoked self ++ [(cb, the_transport (transport self))])
  else
    mk (_waiters self ++ [cb]) (available self) (transport self) (invoked self).

Definition release (self : t) : t :=
  match _waiters self with
  | cb :: rest =>
      mk rest false (transport self) (invoked self ++ [(cb, the_writer)])
  | [] =>
      mk [] true (transport self) (invoked self)
  end.

(** [n] calls of [release] in a row. *)
Fixpoint release_times (n : nat) (self : t) : t :=
  match n with
  | O => self
  | S n' => release_times n' (release self)
  end.

End StreamWriter.

(** * StreamReader *)

Module StreamReader.

(** The fields [FlowControlStreamReader.__init__] adds; its [_protocol] is
    the protocol of the world. *)
Record FlowControl : Type := mkFlowControl {
  _b_limit : Z;
  _allow_pause : bool
}.

Record t : Type := mk {
  _limit : Z;
  _buffer : list bytes;
  _buffer_size : Z;
  _buffer_offset : Z;
  _eof : bool;
  _waiter : option fut;
  _eof_waiter : option fut;
  _exception : option exn;
  total_bytes : Z;
  _eof_counter : Z;
  flow_control : option FlowControl   (* [None] for a plain StreamReader *)
}.

(** The reader is built without a timer ([timer=None]). *)
Definition __init__ (limit : Z) : t :=
  mk limit [] 0 0 false None None None 0 0 None.

Definition set_buffer (v : list bytes) (s : t) : t :=
  mk (_limit s) v (_buffer_size s) (_buffer_offset s) (_eof s) (_waiter s)
     (_eof_waiter s) (_exception s) (total_bytes s) (_eof_counter s)
     (flow_control s).

Definition set_buffer_size (v : Z) (s : t) : t :=
  mk (_limit s) (_buffer s) v (_buffer_offset s) (_eof s) (_waiter s)
     (_eof_waiter s) (_exception s) (total_bytes s) (_eof_counter s)
     (flow_control s).

Definition set_buffer_offset (v : Z) (s : t) : t :=
  mk (_limit s) (_buffer s) (_buffer_size s) v (_eof s) (_waiter s)
     (_eof_waiter s) (_exception s) (total_bytes s) (_eof_counter s)
     (flow_control s).

Definition set_eof (v : bool) (s : t) : t :=
  mk (_limit s) (_buffer s) (_buffer_size s) (_buffer_offset s) v (_waiter s)
     (_eof_waiter s) (_exception s) (total_bytes s) (_eof_counter s)
     (flow_control s).

Definition set_waiter (v : option fut) (s : t) : t :=
  mk (_limit s) (_buffer s) (_buffer_size s) (_buffer_offset s) (_eof s) v
     (_eof_waiter s) (_exception s) (total_bytes s) (_eof_counter s)
     (flow_control s).

Definition set_eof_waiter (v : option fut) (s : t) : t :=
  mk (_limit s) (_buffer s) (_buffer_size s) (_buffer_offset s) (_eof s)
     (_waiter s) v (_exception s) (total_bytes s) (_eof_counter s)
     (flow_control s).

Definition set_exception_field (v : option exn) (s : t) : t :=
  mk (_limit s) (_buffer s) (_buffer_size s) (_buffer_offset s) (_eof s)
     (_waiter s) (_eof_waiter s) v (total_bytes s) (_eof_counter s)
     (flow_control s).

Definition set_total_bytes (v : Z) (s : t) : t :=
  mk (_limit s) (_buffer s) (_buffer_size s) (_buffer_offset s) (_eof s)
     (_waiter s) (_eof_waiter s) (_exception s) v (_eof_counter s)
     (flow_control s).

Definition set_eof_counter (v : Z) (s : t) : t :=
  mk (_limit s) (_buffer s) (_buffer_size s) (_buffer_offset s) (_eof s)
     (_waiter s) (_eof_waiter s) (_exception s) (total_bytes s) v
     (flow_control s).

Definition set_flow_control (v : option FlowControl) (s : t) : t :=
  mk (_limit s) (_buffer s) (_buffer_size s) (_buffer_offset s) (_eof s)
     (_waiter s) (_eof_waiter s) (_exception s) (total_bytes s)
     (_eof_counter s) v.

(** Where a parked coroutine continues: the method it is in and the locals
    that method still needs. *)
Inductive frame : Type :=
| in_read (n : Z)
| in_readany
| in_readline (line : list bytes) (line_size : Z)
| in_read_until_eof (blocks : list bytes)
| in_readexactly (blocks : list bytes) (n : Z).

Inductive outcome (A : Type) : Type :=
| Return (a : A) (s : t) (w : World)
| Raise (e : exn) (s : t) (w : World)
| Yield (f : fut) (k : frame) (s : t) (w : World)
| Diverge.

Arguments Raise {A} e s w.
Arguments Yield {A} f k s w.
Arguments Diverge {A}.

(** ** Producer side *)

(** The shared tail of [set_exception], [feed_eof] and [feed_data]:
    [if not waiter.cancelled(): waiter.set_...]. *)
Definition wake (waiter : fut) (r : future) (w : World) : option World :=
  if cancelled w waiter then Some w else resolve waiter r w.

Definition set_exception (exc : exn) (s : t) (w : World) : outcome unit :=
  let s := set_exception_field (Some exc) s in
  let step1 :=
    match _waiter s with
    | None => Some (s, w)
    | Some waiter =>
        match wake waiter (Failed exc) w with
        | Some w' => Some (set_waiter None s, w')
        | None => None
        end
    end in
  match step1 with
  | None => Raise InvalidStateError (set_waiter None s) w
  | Some (s, w) =>
      match _eof_waiter s with
      | None => Return tt s w
      | Some waiter =>
          match wake waiter (Failed exc) w with
          | Some w' => Return tt (set_eof_waiter None s) w'
          | None => Raise InvalidStateError (set_eof_waiter None s) w
          end
      end
  end.

Definition feed_eof (s : t) (w : World) : outcome unit :=
  let s := set_eof true s in
  let step1 :=
    match _waiter s with
    | None => Some (s, w)
    | Some waiter =>
        match wake waiter (Result true) w with
        | Some w' => Some (set_waiter None s, w')
        | None => None
        end
    end in
  match step1 with
  | None => Raise InvalidStateError (set_waiter None s) w
  | Some (s, w) =>
      match _eof_waiter s with
      | None => Return tt s w
      | Some waiter =>
          match wake waiter (Result true) w with
          | Some w' => Return tt (set_eof_waiter None s) w'
          | None => Raise InvalidStateError (set_eof_waiter None s) w
          end
      end
  end.

Definition is_eof (s : t) : bool := _eof s.

Definition at_eof (s : t) : bool := _eof s && negb (truthy (_buffer s)).

Definition unread_data (data : bytes) (s : t) (w : World) : outcome unit :=
  if negb (truthy data) then Return tt s w
  else
    let prepend (s : t) :=
      Return tt
        (set_buffer_size (_buffer_size s + len data)
           (set_buffer (data :: _buffer s) s)) w in
    if _buffer_offset s =? 0 then prepend s
    else
      match _buffer s with
      | first :: rest =>
          prepend
            (set_buffer_offset 0
               (set_buffer (slice_from first (_buffer_offset s) :: rest) s))
      | [] => Raise IndexError s w      (* [self._buffer[0]] on an empty deque *)
      end.

Definition feed_data (data : bytes) (s : t) (w : World) : outcome unit :=
  if _eof s then Raise (AssertionError "feed_data after feed_eof") s w
  else if negb (truthy data) then Return tt s w
  else
    let s := set_buffer (_buffer s ++ [data]) s in
    let s := set_buffer_size (_buffer_size s + len data) s in
    let s := set_total_bytes (total_bytes s + len data) s in
    match _waiter s with
    | None => Return tt s w
    | Some waiter =>
        let s := set_waiter None s in
        match wake waiter (Result false) w with
        | Some w' => Return tt s w'
        | None => Raise InvalidStateError s w
        end
    end.

(** ** Consumer side *)

(** The part of [_wait] before its [yield from]: refuse a second waiter, or
    park on a fresh future; [k] is where the caller continues. *)
Definition _wait (func_name : string) (k : frame) (s : t) (w : World)
  : outcome bytes :=
  match _waiter s with
  | Some _ =>
      Raise (RuntimeError
               (func_name ++
                "() called while another coroutine is already waiting for incoming data"))
            s w
  | None =>
      let (waiter, w') := create_future w in
      Yield waiter k (set_waiter (Some waiter) s) w'
  end.

(** The part of [_wait] after its [yield from], once the loop finds the
    future done: the [finally] clause runs, and the future's exception, if
    any, is raised at the [yield from].  [None] while the future is pending. *)
Definition _wait_resumed (waiter : fut) (s : t) (w : World)
  : option (option exn * t) :=
  match future_state w waiter with
  | None | Some Pending => None
  | Some (Result _) => Some (None, set_waiter None s)
  | Some (Failed e) => Some (Some e, set_waiter None s)
  | Some Cancelled => Some (Some CancelledError, set_waiter None s)
  end.

Definition _read_nowait_chunk (n : Z) (s : t) : option (bytes * t) :=
  match _buffer s with
  | [] => None                                   (* IndexError *)
  | first_buffer :: rest =>
      let offset := _buffer_offset s in
      let '(data, s) :=
        if negb (n =? -1) && (len first_buffer - offset >? n) then
          (slice first_buffer offset (offset + n),
           set_buffer_offset (offset + n) s)
        else if negb (offset =? 0) then
          (slice_from first_buffer offset,
           set_buffer_offset 0 (set_buffer rest s))
        else
          (first_buffer, set_buffer rest s) in
      Some (data, set_buffer_size (_buffer_size s - len data) s)
  end.

Fixpoint _read_nowait_loop (fuel : nat) (n : Z) (chunks : list bytes)
  (s : t) (w : World) : outcome bytes :=
  match _buffer s with
  | [] => Return (join chunks) s w
  | _ :: _ =>
      match fuel with
      | O => Diverge
      | S fuel' =>
          match _read_nowait_chunk n s with
          | None => Raise IndexError s w
          | Some (chunk, s') =>
              let chunks' := chunks ++ [chunk] in
              if n =? -1 then _read_nowait_loop fuel' n chunks' s' w
              else
                let n' := n - len chunk in
                if n' =? 0 then Return (join chunks') s' w
                else _read_nowait_loop fuel' n' chunks' s' w
          end
      end
  end.

(** Every turn of the loop either pops a chunk or ends the loop, so the
    length of the deque bounds the number of turns (see [_read_nowait_total]). *)
Definition _read_nowait (n : Z) (s : t) (w : World) : outcome bytes :=
  _read_nowait_loop (S (length (_buffer s))) n [] s w.

(** *** Flow control hooks of the subclass *)

Definition _check_buffer_size (fc : FlowControl) (s : t) (w : World) : World :=
  if _reading_paused (protocol w) then
    if _buffer_size s <? _b_limit fc then
      let (ok, w') := try_call resume_reading w in
      if ok then set_reading_paused false w' else w'
    else w
  else
    if _buffer_size s >? _b_limit fc then
      let (ok, w') := try_call pause_reading w in
      if ok then set_reading_paused true w' else w'
    else w.

(** [maybe_resume(func)]: the check runs when [func] returns, not when it
    raises. *)
Definition maybe_resume (fc : FlowControl) (o : outcome bytes) : outcome bytes :=
  match o with
  | Return result s w => Return result s (_check_buffer_size fc s w)
  | _ => o
  end.

(** What a call through [self] adds to the method of the base class: for a
    [FlowControlStreamReader] the override is
    [maybe_resume(super().method)], for a plain reader nothing. *)
Definition overridden (o : outcome bytes) : outcome bytes :=
  match o with
  | Return _ s _ =>
      match flow_control s with
      | Some fc => maybe_resume fc o
      | None => o
      end
  | _ => o
  end.

(** *** readany *)

Definition readany (s : t) (w : World) : outcome bytes :=
  match _exception s with
  | Some e => Raise e s w
  | None =>
      if negb (truthy (_buffer s)) && negb (_eof s)
      then _wait "readany" in_readany s w
      else _read_nowait (-1) s w
  end.

(** [self.readany()] *)
Definition self_readany (s : t) (w : World) : outcome bytes :=
  overridden (readany s w).

(** *** read *)

(** The loop of [read(n)] for [n < 0], entered with the outcome of the
    current [self.readany()]. *)
Fixpoint read_until_eof (fuel : nat) (blocks : list bytes)
  (o : outcome bytes) : outcome bytes :=
  match o with
  | Return block s w =>
      if truthy block then
        match fuel with
        | O => Diverge
        | S fuel' =>
            read_until_eof fuel' (blocks ++ [block]) (self_readany s w)
        end
      else Return (join blocks) s w
  | Yield waiter _ s w => Yield waiter (in_read_until_eof blocks) s w
  | Raise e s w => Raise e s w
  | Diverge => Diverge
  end.

(** [readany] empties the deque, so the call after a non-empty block parks
    or sees EOF: two turns are all the loop can take between two parkings. *)
Definition read_until_eof_fuel : nat := 2.

(** The [__debug__] block of [read]; the warning it logs is not modelled. *)
Definition count_eof_access (s : t) : t :=
  if _eof s && negb (truthy (_buffer s))
  then set_eof_counter (_eof_counter s + 1) s
  else s.

Definition read (n : Z) (s : t) (w : World) : outcome bytes :=
  match _exception s with
  | Some e => Raise e s w
  | None =>
      let s := count_eof_access s in
      if n =? 0 then Return [] s w
      else if n <? 0 then
        read_until_eof read_until_eof_fuel [] (self_readany s w)
      else if negb (truthy (_buffer s)) && negb (_eof s)
      then _wait "read" (in_read n) s w
      else _read_nowait n s w
  end.

(** [self.read(n)] *)
Definition self_read (n : Z) (s : t) (w : World) : outcome bytes :=
  overridden (read n s w).

(** *** readexactly *)

(** The loop of [readexactly], entered with the outcome of the current
    [self.read(n)]. *)
Fixpoint readexactly_loop (fuel : nat) (blocks : list bytes) (n : Z)
  (o : outcome bytes) : outcome bytes :=
  match o with
  | Return block s w =>
      if truthy block then
        let blocks' := blocks ++ [block] in
        let n' := n - len block in
        if n' >? 0 then
          match fuel with
          | O => Diverge
          | S fuel' => readexactly_loop fuel' blocks' n' (self_read n' s w)
          end
        else Return (join blocks') s w
      else
        let partial := join blocks in
        Raise (IncompleteReadError partial (len partial + n)) s w
  | Yield waiter _ s w => Yield waiter (in_readexactly blocks n) s w
  | Raise e s w => Raise e s w
  | Diverge => Diverge
  end.

Definition readexactly_fuel : nat := 2.

Definition readexactly (n : Z) (s : t) (w : World) : outcome bytes :=
  match _exception s with
  | Some e => Raise e s w
  | None =>
      if n >? 0
      then readexactly_loop readexactly_fuel [] n (self_read n s w)
      else Return (join []) s w
  end.

(** *** readline *)

(** What follows the inner [while] of [readline]. *)
Definition readline_after_scan (not_enough : bool) (line : list bytes)
  (line_size : Z) (s : t) (w : World) : outcome bytes :=
  if _eof s then Return (join line) s w
  else if not_enough then _wait "readline" (in_readline line line_size) s w
  else Return (join line) s w.

(** The inner [while self._buffer and not_enough] of [readline]. *)
Fixpoint readline_scan (fuel : nat) (line : list bytes) (line_size : Z)
  (s : t) (w : World) : outcome bytes :=
  match _buffer s with
  | [] => readline_after_scan true line line_size s w
  | first :: _ =>
      match fuel with
      | O => Diverge
      | S fuel' =>
          let offset := _buffer_offset s in
          let ichar := find first newline offset + 1 in
          match _read_nowait_chunk
                  (if ichar =? 0 then -1 else ichar - offset) s with
          | None => Raise IndexError s w
          | Some (data, s') =>
              let line' := line ++ [data] in
              let line_size' := line_size + len data in
              if line_size' >? _limit s'
              then Raise (ValueError "Line is too long") s' w
              else if ichar =? 0
              then readline_scan fuel' line' line_size' s' w
              else readline_after_scan false line' line_size' s' w
          end
      end
  end.

(** The scan pops a chunk on every turn but its last. *)
Definition readline_from (line : list bytes) (line_size : Z) (s : t)
  (w : World) : outcome bytes :=
  readline_scan (S (length (_buffer s))) line line_size s w.

Definition readline (s : t) (w : World) : outcome bytes :=
  match _exception s with
  | Some e => Raise e s w
  | None => readline_from [] 0 s w
  end.

(** *** read_nowait *)

Definition read_nowait (n : Z) (s : t) (w : World) : outcome bytes :=
  match _exception s with
  | Some e => Raise e s w
  | None =>
      match _waiter s with
      | Some waiter =>
          if negb (done w waiter)
          then Raise (RuntimeError
                        "Called while some coroutine is waiting for incoming data.")
                     s w
          else _read_nowait n s w
      | None => _read_nowait n s w
      end
  end.

(** *** Continuing a parked coroutine

    The loop steps the coroutine parked on [waiter] with frame [k].  If the
    future is still pending nothing happens.  Otherwise [_wait] finishes and
    the method named by the frame runs on from its [yield from]; calls made
    through [self] pass through the subclass wrapper on their way out. *)
Definition resume (k : frame) (waiter : fut) (s : t) (w : World)
  : outcome bytes :=
  match _wait_resumed waiter s w with
  | None => Yield waiter k s w
  | Some (Some e, s') => Raise e s' w
  | Some (None, s') =>
      match k with
      | in_readany => overridden (_read_nowait (-1) s' w)
      | in_read n => overridden (_read_nowait n s' w)
      | in_readline line line_size =>
          overridden (readline_from line line_size s' w)
      | in_read_until_eof blocks =>
          overridden
            (read_until_eof read_until_eof_fuel blocks
               (overridden (_read_nowait (-1) s' w)))
      | in_readexactly blocks n =>
          overridden
            (readexactly_loop readexactly_fuel blocks n
               (overridden (_read_nowait n s' w)))
      end
  end.

(** ** Unread bytes and the representation invariant *)

(** The bytes a consumer has still to see, in order. *)
Definition content (s : t) : bytes :=
  match _buffer s with
  | [] => []
  | first :: rest => slice_from first (_buffer_offset s) ++ concat rest
  end.

(** No empty chunk is stored, [_buffer_size] counts the unread bytes, and
    the offset points inside the first chunk. *)
Definition wfb (s : t) : bool :=
  forallb (fun chunk : bytes => truthy chunk) (_buffer s)
  && (_buffer_size s =? len (content s))
  && match _buffer s with
     | [] => _buffer_offset s =? 0
     | first :: _ => (0 <=? _buffer_offset s) && (_buffer_offset s <? len first)
     end.

Definition wf (s : t) : Prop := wfb s = true.

(** Everything but the deque and its two counters. *)
Definition control (s : t) :=
  (_limit s, _eof s, _waiter s, _eof_waiter s, _exception s,
   total_bytes s, _eof_counter s, flow_control s).

(** The reader with its deque emptied. *)
Definition drained (s : t) : t :=
  set_buffer_size 0 (set_buffer_offset 0 (set_buffer [] s)).

(** [n] bytes of [l], all of them for [n = -1]. *)
Definition upto (n : Z) (l : bytes) : bytes :=
  if n =? -1 then l else firstn (Z.to_nat n) l.

Definition beyond (n : Z) (l : bytes) : bytes :=
  if n =? -1 then [] else skipn (Z.to_nat n) l.



(** ** Sessions: one producer, one consumer *)



Fixpoint feed_all (cs : list bytes) (s : t) (w : World) : outcome unit :=
  match cs with
  | [] => Return tt s w
  | c :: cs' =>
      match feed_data c s w with
      | Return _ s' w' => feed_all cs' s' w'
      | o => o
      end
  end.





(** ** Notions used to state what the reader does *)

(** The reader once [feed_data] has stored a chunk. *)
Definition fed (data : bytes) (s : t) : t :=
  set_total_bytes (total_bytes s + len data)
    (set_buffer_size (_buffer_size s + len data)
       (set_buffer (_buffer s ++ [data]) s)).

(** The fields the read family decides on. *)
Definition status (s : t) := (_eof s, _waiter s, _exception s, _limit s, flow_control s).



(** What [readexactly] answers when it still needs [m] bytes, has collected
    [blocks], and the stream will deliver [rest] before EOF. *)
Definition readexactly_answer (blocks : list bytes) (m : Z) (rest : bytes)
  (o : outcome bytes) : Prop :=
  if m <=? len rest then
    exists s' w', o = Return (join blocks ++ firstn (Z.to_nat m) rest) s' w'
  else
    exists s' w',
      o = Raise (IncompleteReadError (join blocks ++ rest)
                   (len (join blocks ++ rest) + (m - len rest))) s' w'.


(** The reader an outcome leaves behind. *)
Definition final_state {A : Type} (o : outcome A) : option t :=
  match o with
  | Return _ s _ | Raise _ s _ | Yield _ _ s _ => Some s
  | Diverge => None
  end.

(** [kept s o]: the outcome [o] leaves the reader's [_exception] as it is
    in [s]. *)
Definition kept {A : Type} (s : t) (o : outcome A) : Prop :=
  forall s', final_state o = Some s' -> _exception s' = _exception s.

End StreamReader.

(** * FlowControlStreamReader *)

Module FlowControlStreamReader.

Import StreamReader.

(** [FlowControlStreamReader(protocol, limit, **kwargs)]: [limit] is the
    flow-control limit, [stream_limit] what the keyword arguments hand to
    [StreamReader.__init__] as its own [limit]. *)
Definition __init__ (limit stream_limit : Z) (w : World) : t * World :=
  let s := StreamReader.__init__ stream_limit in
  let fc := mkFlowControl (limit * 2) false in
  if _reading_paused (protocol w) then
    let (ok, w') := try_call resume_reading w in
    if ok
    then (set_flow_control (Some (mkFlowControl (limit * 2) true)) s,
          set_reading_paused false w')
    else (set_flow_control (Some fc) s, w')
  else (set_flow_control (Some fc) s, w).

Definition overflow (fc : FlowControl) (s : t) : bool :=
  _buffer_size s >? _b_limit fc.

Definition _check_buffer_size := StreamReader._check_buffer_size.

Definition feed_data (fc : FlowControl) (data : bytes) (s : t) (w : World)
  : outcome unit :=
  let has_waiter :=
    match _waiter s with
    | Some waiter => negb (cancelled w waiter)
    | None => false
    end in
  match StreamReader.feed_data data s w with
  | Return _ s w =>
      if _allow_pause fc && negb (_reading_paused (protocol w))
         && negb has_waiter && (_buffer_size s >? _b_limit fc)
      then
        let (ok, w') := try_call pause_reading w in
        Return tt s (if ok then set_reading_paused true w' else w')
      else Return tt s w
  | o => o
  end.

(** The decorated methods: each is [maybe_resume] around the method of the
    base class, which is also what a call through [self] reaches. *)
Definition read (fc : FlowControl) (n : Z) (s : t) (w : World) :=
  maybe_resume fc (StreamReader.read n s w).

Definition readline (fc : FlowControl) (s : t) (w : World) :=
  maybe_resume fc (StreamReader.readline s w).

Definition readany (fc : FlowControl) (s : t) (w : World) :=
  maybe_resume fc (StreamReader.readany s w).

Definition readexactly (fc : FlowControl) (n : Z) (s : t) (w : World) :=
  maybe_resume fc (StreamReader.readexactly n s w).

Definition read_nowait (fc : FlowControl) (n : Z) (s : t) (w : World) :=
  maybe_resume fc (StreamReader.read_nowait n s w).

End FlowControlStreamReader.

(** * DataQueue *)

Module DataQueue.

Section Items.

Variable item : Type.

Record t : Type := mk {
  _eof : bool;
  _waiter : option fut;
  _exception : option exn;
  _size : Z;
  _buffer : list (item * Z)
}.

Definition __init__ : t := mk false None None 0 [].

Inductive outcome (A : Type) : Type :=
| Return (a : A) (q : t) (w : World)
| Raise (e : exn) (q : t) (w : World)
| Yield (waiter : fut) (q : t) (w : World).

Arguments Raise {A} e q w.
Arguments Yield {A} waiter q w.

Definition set_waiter (v : option fut) (q : t) : t :=
  mk (_eof q) v (_exception q) (_size q) (_buffer q).

Definition is_eof (q : t) : bool := _eof q.

Definition at_eof (q : t) : bool := _eof q && negb (truthy (_buffer q)).

Definition exception (q : t) : option exn := _exception q.

Definition set_exception (exc : exn) (q : t) (w : World) : t * World :=
  let q := mk (_eof q) (_waiter q) (Some exc) (_size q) (_buffer q) in
  match _waiter q with
  | None => (q, w)
  | Some waiter =>
      let q := set_waiter None q in
      if done w waiter then (q, w)
      else match fut_set_exception waiter exc w with
           | Some w' => (q, w')
           | None => (q, w)     (* not reached: the future is not done *)
           end
  end.

Definition feed_data (data : item) (size : Z) (q : t) (w : World)
  : outcome unit :=
  let q := mk (_eof q) (_waiter q) (_exception q) (_size q + size)
              (_buffer q ++ [(data, size)]) in
  match _waiter q with
  | None => Return tt q w
  | Some waiter =>
      let q := set_waiter None q in
      if cancelled w waiter then Return tt q w
      else match set_result waiter true w with
           | Some w' => Return tt q w'
           | None => Raise InvalidStateError q w
           end
  end.

Definition feed_eof (q : t) (w : World) : outcome unit :=
  let q := mk true (_waiter q) (_exception q) (_size q) (_buffer q) in
  match _waiter q with
  | None => Return tt q w
  | Some waiter =>
      let q := set_waiter None q in
      if cancelled w waiter then Return tt q w
      else match set_result waiter false w with
           | Some w' => Return tt q w'
           | None => Raise InvalidStateError q w
           end
  end.

(** [read] from its second [if] on. *)
Definition read_buffered (q : t) (w : World) : outcome item :=
  match _buffer q with
  | (data, size) :: rest =>
      Return data (mk (_eof q) (_waiter q) (_exception q) (_size q - size) rest) w
  | [] =>
      match _exception q with
      | Some e => Raise e q w
      | None => Raise EofStream q w
      end
  end.

Definition read (q : t) (w : World) : outcome item :=
  if negb (truthy (_buffer q)) && negb (_eof q) then
    match _exception q with
    | Some e => Raise e q w
    | None =>
        match _waiter q with
        | Some _ => Raise (AssertionError "") q w     (* [assert not self._waiter] *)
        | None =>
            let (waiter, w') := create_future w in
            Yield waiter (set_waiter (Some waiter) q) w'
        end
    end
  else read_buffered q w.

(** The loop steps a [read] parked on [waiter]. *)
Definition resume (waiter : fut) (q : t) (w : World) : outcome item :=
  match future_state w waiter with
  | None | Some Pending => Yield waiter q w
  | Some (Result _) => read_buffered q w
  | Some Cancelled => Raise CancelledError (set_waiter None q) w
  | Some (Failed e) =>
      match e with
      | CancelledError | TimeoutError => Raise e (set_waiter None q) w
      | _ => Raise e q w
      end
  end.

(** The queue an outcome leaves behind. *)
Definition final_state {A : Type} (o : outcome A) : t :=
  match o with
  | Return _ q _ | Raise _ q _ | Yield _ q _ => q
  end.

End Items.

Arguments Raise {item A} e q w.
Arguments Yield {item A} waiter q w.
Arguments __init__ {item}.

End DataQueue.

(** * FlowControlDataQueue *)

Module FlowControlDataQueue.

Section Items.

Variable item : Type.

Record t : Type := mk {
  queue : DataQueue.t item;     (* the fields of the base class *)
  _limit : Z;
  _allow_pause : bool
}.

Inductive outcome (A : Type) : Type :=
| Return (a : A) (q : t) (w : World)
| Raise (e : exn) (q : t) (w : World)
| Yield (waiter : fut) (q : t) (w : World).

Arguments Raise {A} e q w.
Arguments Yield {A} waiter q w.

Definition with_queue (self : t) (q : DataQueue.t item) : t :=
  mk q (_limit self) (_allow_pause self).

Definition __init__ (limit : Z) (w : World) : t * World :=
  if _reading_paused (protocol w) then
    let (ok, w') := try_call resume_reading w in
    if ok
    then (mk DataQueue.__init__ (limit * 2) true, set_reading_paused false w')
    else (mk DataQueue.__init__ (limit * 2) false, w')
  else (mk DataQueue.__init__ (limit * 2) false, w).

Definition feed_data (data : item) (size : Z) (self : t) (w : World)
  : outcome unit :=
  let has_waiter :=
    match DataQueue._waiter (queue self) with
    | Some waiter => negb (cancelled w waiter)
    | None => false
    end in
  match DataQueue.feed_data data size (queue self) w with
  | DataQueue.Return _ q w =>
      if _allow_pause self && negb (_reading_paused (protocol w))
         && negb has_waiter && (DataQueue._size q >? _limit self)
      then
        let (ok, w') := try_call pause_reading w in
        Return tt (with_queue self q)
               (if ok then set_reading_paused true w' else w')
      else Return tt (with_queue self q) w
  | DataQueue.Raise e q w => Raise e (with_queue self q) w
  | DataQueue.Yield waiter q w => Yield waiter (with_queue self q) w
  end.

(** The lines of [read] below [result = yield from super().read()]. *)
Definition check_size (self : t) (w : World) : World :=
  if _reading_paused (protocol w) then
    if DataQueue._size (queue self) <? _limit self then
      let (ok, w') := try_call resume_reading w in
      if ok then set_reading_paused false w' else w'
    else w
  else
    if DataQueue._size (queue self) >? _limit self then
      let (ok, w') := try_call pause_reading w in
      if ok then set_reading_paused true w' else w'
    else w.

Definition after_super_read (self : t) (o : DataQueue.outcome item item)
  : outcome item :=
  match o with
  | DataQueue.Return result q w =>
      let self := with_queue self q in
      Return result self (check_size self w)
  | DataQueue.Raise e q w => Raise e (with_queue self q) w
  | DataQueue.Yield waiter q w => Yield waiter (with_queue self q) w
  end.

Definition read (self : t) (w : World) : outcome item :=
  after_super_read self (DataQueue.read (queue self) w).

Definition resume (waiter : fut) (self : t) (w : World) : outcome item :=
  after_super_read self (DataQueue.resume waiter (queue self) w).

End Items.

Arguments Raise {item A} e q w.
Arguments Yield {item A} waiter q w.

End FlowControlDataQueue.

(** * Payload adapters and their registry *)

Module Payload.

(** The classes that matter to the registry, and some that it does not
    know.  [mro] lists a class with its bases, after Python's [io] module
    and the class statements of [streams.py]. *)
Inductive klass : Type :=
| bytes_ | bytearray_ | memoryview_ | str_
| StringIO_ | TextIOWrapper_ | TextIOBase_
| BytesIO_ | BufferedReader_ | BufferedRandom_ | BufferedIOBase_
| FileIO_ | RawIOBase_ | IOBase_
| asyncio_StreamReader_ | StreamReader_ | FlowControlStreamReader_
| DataQueue_ | ChunksQueue_ | FlowControlDataQueue_ | FlowControlChunksQueue_
| int_ | NoneType_ | dict_ | object_.

Definition klass_eq_dec (a b : klass) : {a = b} + {a <> b}.
Proof. decide equality. Defined.

Definition mro (k : klass) : list klass :=
  match k with
  | StringIO_ => [StringIO_; TextIOBase_; IOBase_; object_]
  | TextIOWrapper_ => [TextIOWrapper_; TextIOBase_; IOBase_; object_]
  | TextIOBase_ => [TextIOBase_; IOBase_; object_]
  | BytesIO_ => [BytesIO_; BufferedIOBase_; IOBase_; object_]
  | BufferedReader_ => [BufferedReader_; BufferedIOBase_; IOBase_; object_]
  | BufferedRandom_ => [BufferedRandom_; BufferedIOBase_; IOBase_; object_]
  | BufferedIOBase_ => [BufferedIOBase_; IOBase_; object_]
  | FileIO_ => [FileIO_; RawIOBase_; IOBase_; object_]
  | RawIOBase_ => [RawIOBase_; IOBase_; object_]
  | FlowControlStreamReader_ =>
      [FlowControlStreamReader_; StreamReader_; object_]
  | ChunksQueue_ => [ChunksQueue_; DataQueue_; object_]
  | FlowControlDataQueue_ => [FlowControlDataQueue_; DataQueue_; object_]
  | FlowControlChunksQueue_ =>
      [FlowControlChunksQueue_; FlowControlDataQueue_; DataQueue_; object_]
  | object_ => [object_]
  | k => [k; object_]
  end.

Definition issubclass (k base : klass) : bool :=
  existsb (fun c => if klass_eq_dec c base then true else false) (mro k).

(** A [str]: its code points. *)
Definition text : Type := list N.

(** The objects a caller hands over: a buffer of bytes ([bytes],
    [bytearray], [memoryview]), a [str], or any other object, known by its
    class and identity. *)
Inductive object : Type :=
| Buffer (k : klass) (data : bytes)
| Text (s : text)
| Handle (k : klass) (id : nat).

Definition type_of (o : object) : klass :=
  match o with
  | Buffer k _ => k
  | Text _ => str_
  | Handle k _ => k
  end.

(** [isinstance(o, types)] with [types] a class or a tuple of classes. *)
Definition isinstance (o : object) (types : list klass) : bool :=
  existsb (issubclass (type_of o)) types.

(** The subclasses of [Payload] that the module registers. *)
Inductive adapter : Type :=
| BytesPayload | StringPayload | StringIOPayload | TextIOPayload
| BytesIOPayload | BufferedReaderPayload | IOBasePayload
| StreamReaderPayload | DataQueuePayload.

(** A keyword argument that may be left out. *)
Inductive kwarg (A : Type) : Type :=
| NotPassed
| Passed (a : A).

Arguments NotPassed {A}.

Section Helpers.

(** What lies outside [payload.py]: the mapping type of [headers] and the
    lookup of [hdrs.CONTENT_TYPE] in it; the [charset] parameter that
    [helpers.parse_mimetype] finds in a content type; [str.encode]; and the
    constructors of the file-like adapters, which lean on
    [helpers.guess_filename] and [helpers.content_disposition_header]. *)
Variable headers : Type.
Variable content_type_in : headers -> option string.
Variable parse_mimetype_charset : option string -> option string.
Variable encode : string -> text -> exn + bytes.

Record payload : Type := mkPayload {
  adapter_of : adapter;
  _value : object;
  _encoding : option string;
  _filename : option string;
  _headers : option headers;
  _content_type : option string;
  _size : option Z
}.

Record kwargs : Type := mkKwargs {
  kw_headers : option headers;
  kw_content_type : kwarg (option string);
  kw_filename : kwarg (option string);
  kw_encoding : option string
}.

Definition no_kwargs : kwargs := mkKwargs None NotPassed NotPassed None.

Variable io_payload : adapter -> object -> kwargs -> exn + payload.

(** What reaches [PayloadRegistry.get]: a raw object or an adapter. *)
Inductive value : Type :=
| Raw (o : object)
| Adapted (p : payload).

(** [Payload.__init__]; [_size] keeps the class attribute [None]. *)
Definition Payload__init__ (cls : adapter) (v : object) (kw : kwargs)
  : payload :=
  let content_type :=
    match kw_content_type kw with
    | Passed ct => ct
    | NotPassed =>
        match kw_headers kw with
        | Some h => content_type_in h
        | None => None
        end
    end in
  mkPayload cls v (kw_encoding kw)
    (match kw_filename kw with Passed f => f | NotPassed => None end)
    (kw_headers kw) content_type None.

Definition with_size (n : Z) (p : payload) : payload :=
  mkPayload (adapter_of p) (_value p) (_encoding p) (_filename p)
    (_headers p) (_content_type p) (Some n).

Definition object_len (o : object) : Z :=
  match o with
  | Buffer _ data => len data
  | Text s => len s
  | Handle _ _ => 0
  end.

(** [BytesPayload.__init__], run for the class [cls]. *)
Definition BytesPayload__init__ (cls : adapter) (v : object) (kw : kwargs)
  : exn + payload :=
  if isinstance v [bytes_; bytearray_; memoryview_] then
    let kw :=
      match kw_content_type kw with
      | NotPassed =>
          mkKwargs (kw_headers kw) (Passed (Some "application/octet-stream"%string))
            (kw_filename kw) (kw_encoding kw)
      | Passed _ => kw
      end in
    inr (with_size (object_len v) (Payload__init__ cls v kw))
  else inl (AssertionError "value argument must be byte-ish").

Definition default_text_type : string := "text/plain; charset=utf-8".

(** [StringPayload.__init__] *)
Definition StringPayload__init__ (v : object) (kw : kwargs) : exn + payload :=
  let content_type :=
    match kw_content_type kw with
    | NotPassed => Some default_text_type
    | Passed ct => ct
    end in
  let charset :=
    match parse_mimetype_charset content_type with
    | Some c => c
    | None => "utf-8"%string
    end in
  match v with
  | Text s =>
      match encode charset s with
      | inr encoded =>
          BytesPayload__init__ StringPayload (Buffer bytes_ encoded)
            (mkKwargs (kw_headers kw) (Passed content_type) (kw_filename kw)
               (Some charset))
      | inl e => inl e
      end
  | _ => inl AttributeError           (* no [encode] on the value *)
  end.

(** Calling the constructor [ctor] on [v]. *)
Definition construct (ctor : adapter) (v : object) (kw : kwargs)
  : exn + payload :=
  match ctor with
  | BytesPayload => BytesPayload__init__ BytesPayload v kw
  | StringPayload => StringPayload__init__ v kw
  | StreamReaderPayload | DataQueuePayload => inr (Payload__init__ ctor v kw)
  | _ => io_payload ctor v kw
  end.

Definition registry : Type := list (adapter * list klass).

Definition register (ctor : adapter) (type : list klass) (r : registry)
  : registry :=
  r ++ [(ctor, type)].

(** The [for] loop of [PayloadRegistry.get]. *)
Fixpoint first_match (r : registry) (data : object) : option adapter :=
  match r with
  | [] => None
  | (ctor, type) :: rest =>
      if isinstance data type then Some ctor else first_match rest data
  end.

Definition get (r : registry) (data : value) (kw : kwargs) : exn + payload :=
  match data with
  | Adapted p => inr p
  | Raw o =>
      match first_match r o with
      | Some ctor => construct ctor o kw
      | None => inl LookupError
      end
  end.

Definition PAYLOAD_REGISTRY : registry :=
  register DataQueuePayload [DataQueue_]
    (register StreamReaderPayload [asyncio_StreamReader_; StreamReader_]
       (register IOBasePayload [IOBase_]
          (register BufferedReaderPayload [BufferedReader_; BufferedRandom_]
             (register BytesIOPayload [BytesIO_]
                (register TextIOPayload [TextIOBase_]
                   (register StringIOPayload [StringIO_]
                      (register StringPayload [str_]
                         (register BytesPayload
                            [bytes_; bytearray_; memoryview_] [])))))))).

(** [get_payload(data, **kwargs)] *)
Definition get_payload (data : value) (kw : kwargs) : exn + payload :=
  get PAYLOAD_REGISTRY data kw.

End Helpers.

(** An instance of the helpers for running the registry: no headers, the
    charset read off the one content type the module itself supplies, and
    an encoder for ASCII text. *)
Definition ascii_encode (charset : string) (s : text) : exn + bytes :=
  if forallb (fun c => (c <? 128)%N) s
  then inr (map (fun c => match Byte.of_N c with Some b => b | None => x00 end) s)
  else inl (ValueError "not ASCII").

Definition charset_of (content_type : option string) : option string :=
  match content_type with
  | Some ct => if String.eqb ct default_text_type then Some "utf-8"%string else None
  | None => None
  end.

Definition no_io (ctor : adapter) (o : object) (kw : kwargs unit)
  : exn + payload unit :=
  inl LookupError.

End Payload.

(** * StreamWriter: socket options *)

Module StreamWriterOptions.

Inductive family : Type := AF_INET | AF_INET6 | AF_UNIX.

Inductive sockopt : Type := TCP_NODELAY | TCP_CORK.

(** The socket as the writer sees it: its family, the [setsockopt] calls it
    took, oldest first, and how many more calls it takes before it starts
    raising [OSError] ([None]: it never does). *)
Record socket : Type := mkSocket {
  sock_family : family;
  sock_calls : list (sockopt * bool);
  sock_good_for : option nat
}.

(** [sock.setsockopt(IPPROTO_TCP, opt, value)]; [None] is [OSError]. *)
Definition setsockopt (opt : sockopt) (value : bool) (sock : socket)
  : option socket :=
  match sock_good_for sock with
  | Some O => None
  | Some (S k) =>
      Some (mkSocket (sock_family sock) (sock_calls sock ++ [(opt, value)])
              (Some k))
  | None =>
      Some (mkSocket (sock_family sock) (sock_calls sock ++ [(opt, value)])
              None)
  end.

(** The fields of [StreamWriter] that the two setters use. *)
Record t : Type := mk {
  _tcp_nodelay : bool;
  _tcp_cork : bool;
  _socket : option socket
}.

Definition __init__ (sock : option socket) : t := mk false false sock.

Definition tcp_nodelay (self : t) : bool := _tcp_nodelay self.

Definition tcp_cork (self : t) : bool := _tcp_cork self.

Definition is_inet (f : family) : bool :=
  match f with AF_INET | AF_INET6 => true | AF_UNIX => false end.

Section Platform.

(** Whether the platform has [TCP_CORK] or [TCP_NOPUSH], that is whether
    the module constant [CORK] is not [None]. *)
Variable has_CORK : bool.

Definition set_tcp_nodelay (value : bool) (self : t) : t :=
  if Bool.eqb (_tcp_nodelay self) value then self
  else
    match _socket self with
    | None => self
    | Some sock =>
        if negb (is_inet (sock_family sock)) then self
        else
          (* try: *)
          let uncork :=
            if _tcp_cork self && has_CORK then
              match setsockopt TCP_CORK false sock with
              | Some sock' => Some (mk (_tcp_nodelay self) false (Some sock'))
              | None => None
              end
            else Some self in
          match uncork with
          | None => self                                (* except OSError: pass *)
          | Some self1 =>
              match _socket self1 with
              | Some sock1 =>
                  match setsockopt TCP_NODELAY value sock1 with
                  | Some sock2 => mk value (_tcp_cork self1) (Some sock2)
                  | None => self1                        (* except OSError: pass *)
                  end
              | None => self1
              end
          end
    end.

Definition set_tcp_cork (value : bool) (self : t) : t :=
  if Bool.eqb (_tcp_cork self) value then self
  else
    match _socket self with
    | None => self
    | Some sock =>
        if negb (is_inet (sock_family sock)) then self
        else
          (* try: *)
          let nodelay_off :=
            if _tcp_nodelay self then
              match setsockopt TCP_NODELAY false sock with
              | Some sock' => Some (mk false (_tcp_cork self) (Some sock'))
              | None => None
              end
            else Some self in
          match nodelay_off with
          | None => self                                (* except OSError: pass *)
          | Some self1 =>
              if has_CORK then
                match _socket self1 with
                | Some sock1 =>
                    match setsockopt TCP_CORK value sock1 with
                    | Some sock2 => mk (_tcp_nodelay self1) value (Some sock2)
                    | None => self1                      (* except OSError: pass *)
                    end
                | None => self1
                end
              else self1
          end
    end.

(** Never both flags, and no cork flag on a platform without [CORK]. *)
Definition consistent (self : t) : Prop :=
  _tcp_nodelay self && _tcp_cork self = false /\
  (_tcp_cork self = true -> has_CORK = true).

(** A call of either setter. *)
Inductive setter : Type :=
| nodelay (value : bool)
| cork (value : bool).

Definition apply_setter (c : setter) (self : t) : t :=
  match c with
  | nodelay v => set_tcp_nodelay v self
  | cork v => set_tcp_cork v self
  end.

Definition apply_setters (cs : list setter) (self : t) : t :=
  fold_left (fun acc c => apply_setter c acc) cs self.

End Platform.

End StreamWriterOptions.

(** * ChunksQueue *)

Module ChunksQueue.

(** [ChunksQueue.read]: the [read] of [DataQueue] with [EofStream] turned
    into [b'']. *)
Definition catch_eof (o : DataQueue.outcome bytes bytes)
  : DataQueue.outcome bytes bytes :=
  match o with
  | DataQueue.Raise EofStream q w => DataQueue.Return [] q w
  | _ => o
  end.

Definition read (q : DataQueue.t bytes) (w : World)
  : DataQueue.outcome bytes bytes :=
  catch_eof (DataQueue.read q w).

Definition resume (waiter : fut) (q : DataQueue.t bytes) (w : World)
  : DataQueue.outcome bytes bytes :=
  catch_eof (DataQueue.resume waiter q w).

Definition readany := read.

End ChunksQueue.

(** * Runs of a DataQueue *)

Module DataQueueRuns.

Section Items.

Variable item : Type.

(** [feed_data] for each of [items] in turn, with nobody waiting. *)
Fixpoint feed_all (items : list (item * Z)) (q : DataQueue.t item) (w : World)
  : DataQueue.outcome item unit :=
  match items with
  | [] => DataQueue.Return tt q w
  | (data, size) :: rest =>
      match DataQueue.feed_data data size q w with
      | DataQueue.Return _ q' w' => feed_all rest q' w'
      | o => o
      end
  end.

(** [k] calls of [read] in a row; [None] if one of them does not return. *)
Fixpoint reads (k : nat) (q : DataQueue.t item) (w : World)
  : option (list item * DataQueue.t item * World) :=
  match k with
  | O => Some ([], q, w)
  | S k' =>
      match DataQueue.read q w with
      | DataQueue.Return data q' w' =>
          match reads k' q' w' with
          | Some (rest, q'', w'') => Some (data :: rest, q'', w'')
          | None => None
          end
      | _ => None
      end
  end.

Definition total_size (buffer : list (item * Z)) : Z :=
  fold_right (fun entry acc => snd entry + acc) 0 buffer.

End Items.

End DataQueueRuns.

(** * Writing a file-like payload *)

Module IOBasePayload.

(** The wrapped file: the bytes it has still to give, and whether it was
    closed. *)
Record file : Type := mkFile {
  remaining : bytes;
  closed : bool
}.

(** [f.read(n)], [n >= 0]: up to [n] bytes; [ValueError] once closed. *)
Definition file_read (n : Z) (f : file) : exn + (bytes * file) :=
  if closed f then inl (ValueError "I/O operation on closed file")
  else inr (firstn (Z.to_nat n) (remaining f),
            mkFile (skipn (Z.to_nat n) (remaining f)) false).

Definition close (f : file) : file := mkFile (remaining f) true.

(** The payload writer: the chunks it took, oldest first, and how many more
    it takes before [write] raises ([None]: it never does). *)
Record writer : Type := mkWriter {
  written : list bytes;
  good_for : option nat
}.

Definition writer_write (chunk : bytes) (wr : writer) : exn + writer :=
  match good_for wr with
  | Some O => inl (TransportError 0)
  | Some (S k) => inr (mkWriter (written wr ++ [chunk]) (Some k))
  | None => inr (mkWriter (written wr ++ [chunk]) None)
  end.

(** The [while chunk:] loop of [write], entered with the chunk just read;
    it gives the exception that left the loop, if any. *)
Fixpoint write_loop (fuel : nat) (limit : Z) (chunk : bytes) (f : file)
  (wr : writer) : option (option exn * file * writer) :=
  if truthy chunk then
    match fuel with
    | O => None
    | S fuel' =>
        match writer_write chunk wr with
        | inl e => Some (Some e, f, wr)
        | inr wr' =>
            match file_read limit f with
            | inl e => Some (Some e, f, wr')
            | inr (chunk', f') => write_loop fuel' limit chunk' f' wr'
            end
        end
    end
  else Some (None, f, wr).

(** [IOBasePayload.write(writer)] reading [limit] bytes at a time
    ([DEFAULT_LIMIT] in the module): the [try] body, then the [finally]
    clause.  Every turn of the loop takes at least one byte off the file, so
    the bytes left bound the number of turns. *)
Definition write (limit : Z) (f : file) (wr : writer)
  : option (option exn * file * writer) :=
  let body :=
    match file_read limit f with
    | inl e => Some (Some e, f, wr)
    | inr (chunk, f') => write_loop (S (length (remaining f))) limit chunk f' wr
    end in
  match body with
  | Some (e, f', wr') => Some (e, close f', wr')
  | None => None
  end.

End IOBasePayload.

(** * Further notions about the reader *)

Module StreamReaderInvariant.

Import StreamReader.

(** The outcome leaves a well-formed reader behind. *)
Definition keeps_wf {A : Type} (o : outcome A) : Prop :=
  forall s', final_state o = Some s' -> wf s'.


End StreamReaderInvariant.

(** * StreamReader.wait_eof *)

Module StreamReaderEof.

Import StreamReader.

(** The [eof_waiter] property: the future stored in [_eof_waiter], or a new
    one, which is completed at once after EOF and stored before it.  [None]
    stands for the [InvalidStateError] of [set_result]. *)
Definition eof_waiter (s : t) (w : World) : option (fut * t * World) :=
  match _eof_waiter s with
  | Some waiter => Some (waiter, s, w)
  | None =>
      let (waiter, w') := create_future w in
      if _eof s then
        match set_result waiter true w' with
        | Some w'' => Some (waiter, s, w'')
        | None => None
        end
      else Some (waiter, set_eof_waiter (Some waiter) s, w')
  end.

(** Where a call of [wait_eof] stands: it has returned, it is parked at its
    [yield from] on a future, or it has raised. *)
Inductive waited : Type :=
| Returned (s : t) (w : World)
| Waiting (f : fut) (s : t) (w : World)
| Raised (e : exn) (s : t) (w : World).

Definition wait_eof (s : t) (w : World) : waited :=
  if _eof s then Returned s w
  else
    match eof_waiter s w with
    | Some (waiter, s', w') => Waiting waiter s' w'
    | None => Raised InvalidStateError s w
    end.

(** The loop steps a [wait_eof] parked on [waiter]. *)
Definition resume (waiter : fut) (s : t) (w : World) : waited :=
  match future_state w waiter with
  | None | Some Pending => Waiting waiter s w
  | Some (Result _) => Returned s w
  | Some (Failed e) => Raised e s w
  | Some Cancelled => Raised CancelledError s w
  end.

End StreamReaderEof.

(** * EmptyStreamReader *)

Module EmptyStreamReader.

(** The class keeps no state and never parks: a call answers with a value
    ([inl]) or raises ([inr]). *)
Definition answer (A : Type) : Type := (A + exn)%type.

Definition exception : option exn := None.

Definition set_exception (exc : exn) : unit := tt.

Definition feed_eof : unit := tt.

Definition is_eof : bool := true.

Definition at_eof : bool := true.

Definition wait_eof : answer unit := inl tt.

Definition feed_data (data : bytes) : unit := tt.

Definition readline : answer bytes := inl [].

Definition read (n : Z) : answer bytes := inl [].

Definition readany : answer bytes := inl [].

Definition readexactly (n : Z) : answer bytes :=
  inr (IncompleteReadError [] n).

Definition read_nowait : answer bytes := inl [].

(** What a call on a [StreamReader] answers, if it finishes. *)
Definition answer_of (o : StreamReader.outcome bytes)
  : option (answer bytes) :=
  match o with
  | StreamReader.Return a _ _ => Some (inl a)
  | StreamReader.Raise e _ _ => Some (inr e)
  | _ => None
  end.

End EmptyStreamReader.

(** * Properties *)

Unset Implicit Arguments.

(** * StreamReader: what the read family returns *)

Module StreamReaderFacts.
Import StreamReader.

Lemma len_nonneg (A : Type) (l : list A) : 0 <= len l.
Proof. unfold len. lia. Qed.

Lemma len_app (A : Type) (l1 l2 : list A) : len (l1 ++ l2) = len l1 + len l2.
Proof. unfold len. rewrite length_app. lia. Qed.

Lemma len_nil_inv (A : Type) (l : list A) : len l = 0 -> l = [].
Proof. destruct l; [reflexivity | unfold len; simpl; lia]. Qed.

Lemma truthy_true (A : Type) (l : list A) : truthy l = true <-> l <> [].
Proof. destruct l; simpl; split; congruence. Qed.

Lemma truthy_false (A : Type) (l : list A) : truthy l = false <-> l = [].
Proof. destruct l; simpl; split; congruence. Qed.


Lemma slice_from_in_range (d : bytes) (o : Z) :
  0 <= o <= len d -> slice_from d o = skipn (Z.to_nat o) d.
Proof.
  intros H. unfold slice_from, clamp_index.
  destruct (o <? 0) eqn:E; [lia |].
  rewrite Z.min_l by lia. reflexivity.
Qed.

Lemma slice_from_0 (d : bytes) : slice_from d 0 = d.
Proof. apply slice_from_in_range. pose proof (len_nonneg _ d). lia. Qed.

Lemma slice_in_range (d : bytes) (o n : Z) :
  0 <= o -> 0 <= n -> o + n <= len d ->
  slice d o (o + n) = firstn (Z.to_nat n) (skipn (Z.to_nat o) d).
Proof.
  intros Ho Hn H. unfold slice, clamp_index.
  destruct (o <? 0) eqn:E1; [lia |].
  destruct (o + n <? 0) eqn:E2; [lia |].
  rewrite !Z.min_l by lia. f_equal. f_equal. lia.
Qed.

Lemma len_skipn (d : bytes) (o : Z) :
  0 <= o <= len d -> len (skipn (Z.to_nat o) d) = len d - o.
Proof. intros H. unfold len in *. rewrite length_skipn. lia. Qed.

Lemma len_firstn (d : bytes) (n : Z) :
  0 <= n <= len d -> len (firstn (Z.to_nat n) d) = n.
Proof. intros H. unfold len in *. rewrite length_firstn. lia. Qed.

(** Destructuring the invariant. *)
Lemma wf_iff (s : t) :
  wf s <->
  Forall (fun chunk => chunk <> []) (_buffer s) /\
  _buffer_size s = len (content s) /\
  match _buffer s with
  | [] => _buffer_offset s = 0
  | first :: _ => 0 <= _buffer_offset s < len first
  end.
Proof.
  unfold wf, wfb. rewrite !andb_true_iff, forallb_forall, Forall_forall, Z.eqb_eq.
  split.
  - intros [[H1 H2] H3]. split; [| split]; auto.
    + intros x Hx. apply truthy_true; auto.
    + destruct (_buffer s); lia.
  - intros (H1 & H2 & H3). split; [split |]; auto.
    + intros x Hx. apply truthy_true; auto.
    + destruct (_buffer s); lia.
Qed.

Lemma wf_init (limit : Z) : wf (__init__ limit).
Proof. reflexivity. Qed.

Lemma wf_content_nil (s : t) : wf s -> content s = [] -> _buffer s = [].
Proof.
  intros Hwf Hc. apply wf_iff in Hwf. destruct Hwf as (Hne & _ & Hoff).
  unfold content in Hc. destruct (_buffer s) as [| first rest]; [reflexivity |].
  exfalso. apply app_eq_nil in Hc. destruct Hc as [Hc _].
  rewrite slice_from_in_range in Hc by lia.
  assert (len (skipn (Z.to_nat (_buffer_offset s)) first) = 0) by (rewrite Hc; reflexivity).
  rewrite len_skipn in H by lia. lia.
Qed.

Lemma wf_empty_drained (s : t) : wf s -> _buffer s = [] -> s = drained s.
Proof.
  intros Hwf Hb. apply wf_iff in Hwf. destruct Hwf as (_ & Hsz & Hoff).
  unfold content in Hsz. rewrite Hb in Hsz, Hoff.
  destruct s; simpl in *. unfold drained; simpl. subst. reflexivity.
Qed.

(** One call of [_read_nowait_chunk] on a well-formed, non-empty deque. *)
Lemma _read_nowait_chunk_spec (n : Z) (s : t) :
  wf s -> _buffer s <> [] -> n = -1 \/ 0 < n ->
  exists data s',
    _read_nowait_chunk n s = Some (data, s') /\
    content s = data ++ content s' /\
    wf s' /\ control s' = control s /\ data <> [] /\
    data = upto n (match _buffer s with
                   | first :: _ => slice_from first (_buffer_offset s)
                   | [] => []
                   end) /\
    ((len data = n /\ _buffer s' = _buffer s)
     \/ (_buffer s' = tl (_buffer s) /\ (0 < n -> len data <= n))).
Proof.
  intros Hwf Hne Hn. apply wf_iff in Hwf. destruct Hwf as (Hall & Hsz & Hoff).
  unfold _read_nowait_chunk, content in *.
  destruct (_buffer s) as [| first rest] eqn:Hb; [congruence |].
  inversion Hall as [| ? ? Hfirst Hrest]; subst.
  set (o := _buffer_offset s) in *.
  assert (Hs : slice_from first o = skipn (Z.to_nat o) first)
    by (apply slice_from_in_range; lia).
  assert (Hlen : len (skipn (Z.to_nat o) first) = len first - o)
    by (apply len_skipn; lia).
  destruct (negb (n =? -1) && (len first - o >? n)) eqn:Hcase.
  - (* part of the first chunk *)
    apply andb_true_iff in Hcase. destruct Hcase as [Hn1 Hgt].
    apply negb_true_iff, Z.eqb_neq in Hn1. apply Z.gtb_lt in Hgt.
    assert (0 < n) by lia.
    assert (Hd : slice first o (o + n) = firstn (Z.to_nat n) (skipn (Z.to_nat o) first))
      by (apply slice_in_range; lia).
    assert (Hdl : len (slice first o (o + n)) = n)
      by (rewrite Hd; apply len_firstn; lia).
    eexists. eexists. split; [reflexivity |].
    simpl. rewrite Hb. simpl.
    rewrite (slice_from_in_range first (o + n)) by lia.
    repeat split.
    + rewrite Hs, Hd, app_assoc. f_equal.
      replace (Z.to_nat (o + n)) with (Z.to_nat n + Z.to_nat o)%nat by lia.
      rewrite <- skipn_skipn. symmetry. apply firstn_skipn.
    + apply wf_iff. simpl. rewrite Hb. unfold content. simpl. rewrite Hb.
      repeat split; auto; try lia.
      rewrite Hsz, Hdl, !len_app, Hs, Hlen.
      rewrite slice_from_in_range, len_skipn by lia. lia.
    + intros E. rewrite E in Hdl. unfold len in Hdl. simpl in Hdl. lia.
    + unfold upto. destruct (n =? -1) eqn:E; [apply Z.eqb_eq in E; lia |].
      rewrite Hs. exact Hd.
    + left. split; [exact Hdl | reflexivity].
  - (* the rest of the first chunk *)
    assert (Hle : n = -1 \/ len first - o <= n).
    { apply andb_false_iff in Hcase. destruct Hcase as [E | E].
      - left. apply negb_false_iff, Z.eqb_eq in E. exact E.
      - right. rewrite Z.gtb_ltb in E. apply Z.ltb_ge in E. exact E. }
    assert (Hup : upto n (slice_from first o) = slice_from first o).
    { unfold upto. destruct (n =? -1); [reflexivity |].
      apply firstn_all2. rewrite Hs. unfold len in *. rewrite length_skipn. lia. }
    destruct (negb (o =? 0)) eqn:Ho.
    + eexists. eexists. split; [reflexivity |].
      simpl. repeat split.
      * destruct rest; simpl; [rewrite app_nil_r; reflexivity |].
        rewrite slice_from_0. reflexivity.
      * apply wf_iff. simpl. unfold content. simpl.
        repeat split; auto.
        -- rewrite Hsz, len_app.
           destruct rest as [| c rest']; simpl; [unfold len; simpl; lia |].
           rewrite slice_from_0. simpl. lia.
        -- destruct rest as [| c rest']; [reflexivity |].
           inversion Hrest; subst. destruct c; [congruence |].
           unfold len; simpl; lia.
      * rewrite Hs. intros E. rewrite E in Hlen. unfold len in Hlen at 1. simpl in Hlen. lia.
      * symmetry. exact Hup.
      * right. split; [reflexivity |]. rewrite Hs, Hlen. lia.
    + apply negb_false_iff, Z.eqb_eq in Ho.
      assert (Hfo : slice_from first o = first) by (rewrite Hs, Ho; reflexivity).
      eexists. eexists. split; [reflexivity |].
      simpl. repeat split.
      * rewrite Hfo. f_equal.
        destruct rest; simpl; [reflexivity |]. fold o. rewrite Ho, slice_from_0. reflexivity.
      * apply wf_iff. simpl. unfold content. simpl.
        repeat split; auto.
        -- rewrite Hsz, len_app, Hfo.
           destruct rest as [| c rest']; simpl; [unfold len; simpl; lia |].
           fold o. rewrite Ho, slice_from_0. simpl. lia.
        -- destruct rest as [| c rest']; [exact Ho |].
           inversion Hrest; subst. destruct c; [congruence |].
           fold o. rewrite Ho. unfold len; simpl; lia.
      * exact Hfirst.
      * rewrite Hup. symmetry. exact Hfo.
      * right. split; [reflexivity |]. rewrite <- Hfo, Hs, Hlen. lia.
Qed.

Lemma join_snoc (chunks : list bytes) (data : bytes) :
  join (chunks ++ [data]) = join chunks ++ data.
Proof. unfold join. rewrite concat_app. simpl. rewrite app_nil_r. reflexivity. Qed.

Lemma upto_app (n : Z) (d l : bytes) :
  0 < n -> len d <= n ->
  n - len d <> -1 /\
  upto n (d ++ l) = d ++ upto (n - len d) l /\
  beyond n (d ++ l) = beyond (n - len d) l.
Proof.
  intros Hn Hd. unfold upto, beyond, len in *.
  destruct (n =? -1) eqn:E1; [apply Z.eqb_eq in E1; lia |].
  destruct (n - Z.of_nat (length d) =? -1) eqn:E2; [apply Z.eqb_eq in E2; lia |].
  split; [lia |].
  replace (Z.to_nat n) with (length d + Z.to_nat (n - Z.of_nat (length d)))%nat by lia.
  rewrite firstn_app_2. split; [reflexivity |].
  rewrite skipn_app. rewrite skipn_all2 by lia. simpl.
  f_equal. lia.
Qed.

Lemma upto_nil (n : Z) : upto n [] = [].
Proof. unfold upto. destruct (n =? -1); [reflexivity | apply firstn_nil]. Qed.

Lemma beyond_nil (n : Z) : beyond n [] = [].
Proof. unfold beyond. destruct (n =? -1); [reflexivity | apply skipn_nil]. Qed.

Lemma upto_beyond (n : Z) (l : bytes) : upto n l ++ beyond n l = l.
Proof.
  unfold upto, beyond. destruct (n =? -1).
  - apply app_nil_r.
  - apply firstn_skipn.
Qed.


(** The loop of [_read_nowait]: it takes what was asked from the front of
    the unread bytes and never runs out of turns. *)
Lemma _read_nowait_loop_spec (fuel : nat) :
  forall (n : Z) (chunks : list bytes) (s : t) (w : World),
    wf s -> n = -1 \/ 0 < n -> (length (_buffer s) <= fuel)%nat ->
    exists s',
      _read_nowait_loop fuel n chunks s w
      = Return (join chunks ++ upto n (content s)) s' w /\
      wf s' /\ content s' = beyond n (content s) /\ control s' = control s.
Proof.
  induction fuel as [| fuel IH]; intros n chunks s w Hwf Hn Hfuel.
  - destruct (_buffer s) eqn:Hb; [| simpl in Hfuel; lia].
    exists s. simpl. rewrite Hb. unfold content. rewrite Hb.
    rewrite upto_nil, beyond_nil, app_nil_r. auto.
  - simpl. destruct (_buffer s) as [| first rest] eqn:Hb.
    + exists s. unfold content. rewrite Hb.
      rewrite upto_nil, beyond_nil, app_nil_r. auto.
    + destruct (_read_nowait_chunk_spec n s Hwf) as
        (data & s1 & Hchunk & Hcontent & Hwf1 & Hctl & Hdata & _ & Hshape);
        [rewrite Hb; discriminate | exact Hn |].
      rewrite Hchunk. rewrite Hb in Hshape. simpl in Hshape.
      destruct (n =? -1) eqn:En.
      * apply Z.eqb_eq in En. subst n.
        destruct Hshape as [[Hl _] | [Hb1 _]];
          [pose proof (len_nonneg _ data); lia |].
        destruct (IH (-1) (chunks ++ [data]) s1 w Hwf1 (or_introl eq_refl))
          as (s' & Hrun & Hwf' & Hc' & Hctl');
          [rewrite Hb1; simpl in Hfuel; lia |].
        exists s'. rewrite Hrun, join_snoc, Hcontent.
        unfold upto, beyond in *. simpl in *. rewrite <- app_assoc.
        repeat split; auto. congruence.
      * apply Z.eqb_neq in En.
        assert (Hpos : 0 < n) by lia.
        destruct (n - len data =? 0) eqn:E0.
        -- apply Z.eqb_eq in E0.
           exists s1. rewrite join_snoc, Hcontent.
           destruct (upto_app n data (content s1) Hpos ltac:(lia)) as (_ & Hu & Hbe).
           rewrite Hu, Hbe, E0. unfold upto, beyond. simpl.
           rewrite app_nil_r. auto.
        -- apply Z.eqb_neq in E0.
           destruct Hshape as [[Hl _] | [Hb1 Hle]]; [lia |].
           specialize (Hle Hpos).
           destruct (IH (n - len data) (chunks ++ [data]) s1 w Hwf1 ltac:(lia))
             as (s' & Hrun & Hwf' & Hc' & Hctl');
             [rewrite Hb1; simpl in Hfuel; lia |].
           exists s'. rewrite Hrun, join_snoc, Hcontent.
           destruct (upto_app n data (content s1) Hpos Hle) as (_ & Hu & Hbe).
           rewrite Hu, Hbe, <- app_assoc.
           repeat split; auto. congruence.
Qed.

Lemma _read_nowait_spec (n : Z) (s : t) (w : World) :
  wf s -> n = -1 \/ 0 < n ->
  exists s',
    _read_nowait n s w = Return (upto n (content s)) s' w /\
    wf s' /\ content s' = beyond n (content s) /\ control s' = control s.
Proof.
  intros Hwf Hn. unfold _read_nowait.
  destruct (_read_nowait_loop_spec (S (length (_buffer s))) n [] s w Hwf Hn)
    as (s' & Hrun & H); [lia |].
  exists s'. rewrite Hrun. simpl. auto.
Qed.

(** Reading everything leaves the drained reader. *)
Lemma _read_nowait_all (s : t) (w : World) :
  wf s -> _read_nowait (-1) s w = Return (content s) (drained s) w.
Proof.
  intros Hwf.
  destruct (_read_nowait_spec (-1) s w Hwf (or_introl eq_refl))
    as (s' & Hrun & Hwf' & Hc & Hctl).
  rewrite Hrun. unfold upto. simpl. f_equal.
  rewrite (wf_empty_drained s' Hwf' (wf_content_nil s' Hwf' Hc)).
  unfold control in Hctl. unfold drained. destruct s, s'; simpl in *.
  inversion Hctl; subst. reflexivity.
Qed.

(** ** Feeding *)

(** The invariant and the unread bytes only look at the deque. *)
Lemma wf_ext (s s' : t) :
  _buffer s' = _buffer s -> _buffer_size s' = _buffer_size s ->
  _buffer_offset s' = _buffer_offset s -> wf s -> wf s'.
Proof.
  unfold wf, wfb, content. intros -> -> ->. auto.
Qed.


Lemma content_fed (data : bytes) (s : t) :
  wf s -> content (fed data s) = content s ++ data.
Proof.
  intros Hwf. apply wf_iff in Hwf. destruct Hwf as (_ & _ & Hoff).
  unfold content, fed. simpl.
  destruct (_buffer s) as [| first rest]; simpl.
  - rewrite Hoff, slice_from_0. apply app_nil_r.
  - rewrite concat_app. simpl. rewrite app_nil_r, app_assoc. reflexivity.
Qed.

Lemma wf_fed (data : bytes) (s : t) : wf s -> data <> [] -> wf (fed data s).
Proof.
  intros Hwf Hne. pose proof (content_fed data s Hwf) as Hc.
  apply wf_iff in Hwf. destruct Hwf as (Hall & Hsz & Hoff).
  apply wf_iff. rewrite Hc, len_app. simpl.
  split; [| split].
  - apply Forall_app. split; [exact Hall | constructor; auto].
  - lia.
  - destruct (_buffer s) as [| first rest]; simpl; [| exact Hoff].
    rewrite Hoff. destruct data; [congruence |]. unfold len; simpl; lia.
Qed.

(** [feed_data] on a reader nobody waits on. *)
Lemma feed_data_idle (data : bytes) (s : t) (w : World) :
  _eof s = false -> _waiter s = None ->
  feed_data data s w = Return tt (if truthy data then fed data s else s) w.
Proof.
  intros He Hw. unfold feed_data. rewrite He.
  destruct data as [| x data]; simpl; [reflexivity |].
  rewrite Hw. reflexivity.
Qed.



(** ** readany *)

Lemma readany_ready (s : t) (w : World) :
  wf s -> _exception s = None -> (_buffer s <> [] \/ _eof s = true) ->
  readany s w = Return (content s) (drained s) w.
Proof.
  intros Hwf Hex Hready. unfold readany. rewrite Hex.
  destruct (negb (truthy (_buffer s)) && negb (_eof s)) eqn:E.
  - apply andb_true_iff in E. destruct E as [E1 E2].
    apply negb_true_iff in E1, E2. apply truthy_false in E1.
    destruct Hready; congruence.
  - apply _read_nowait_all. exact Hwf.
Qed.


Lemma content_drained (s : t) : content (drained s) = [].
Proof. reflexivity. Qed.




(** ** read *)


Lemma overridden_inv (o : outcome bytes) (a : bytes) (s : t) (w' : World) :
  overridden o = Return a s w' -> exists w, o = Return a s w.
Proof.
  destruct o as [a0 s0 w0 | | |]; simpl; try discriminate.
  destruct (flow_control s0); simpl; intros H; inversion H; subst; eauto.
Qed.

Lemma wf_count_eof_access (s : t) : wf s -> wf (count_eof_access s).
Proof.
  unfold count_eof_access. destruct (_eof s && negb (truthy (_buffer s))); auto.
Qed.

Lemma content_count_eof_access (s : t) :
  content (count_eof_access s) = content s.
Proof.
  unfold count_eof_access. destruct (_eof s && negb (truthy (_buffer s))); auto.
Qed.

Lemma control_status (s s' : t) : control s' = control s -> status s' = status s.
Proof. unfold control, status. intros H. inversion H. congruence. Qed.

Lemma status_count_eof_access (s : t) : status (count_eof_access s) = status s.
Proof.
  unfold count_eof_access. destruct (_eof s && negb (truthy (_buffer s))); auto.
Qed.

Lemma ready_test (s : t) :
  negb (truthy (_buffer s)) && negb (_eof s) = true
  <-> _buffer s = [] /\ _eof s = false.
Proof.
  rewrite andb_true_iff, !negb_true_iff, truthy_false. tauto.
Qed.

Lemma buffer_count_eof_access (s : t) :
  _buffer (count_eof_access s) = _buffer s /\ _eof (count_eof_access s) = _eof s
  /\ _waiter (count_eof_access s) = _waiter s.
Proof.
  unfold count_eof_access. destruct (_eof s && negb (truthy (_buffer s))); auto.
Qed.

(** [read(n)], [n > 0], when there is something to return. *)
Lemma read_ready (n : Z) (s : t) (w : World) :
  wf s -> _exception s = None -> 0 < n ->
  (_buffer s <> [] \/ _eof s = true) ->
  exists s',
    read n s w = Return (upto n (content s)) s' w /\
    wf s' /\ content s' = beyond n (content s) /\ status s' = status s.
Proof.
  intros Hwf Hex Hn Hready. unfold read. rewrite Hex.
  destruct (n =? 0) eqn:E0; [apply Z.eqb_eq in E0; lia |].
  destruct (n <? 0) eqn:E1; [apply Z.ltb_lt in E1; lia |].
  destruct (buffer_count_eof_access s) as (Hb & He & _).
  rewrite Hb, He.
  destruct (negb (truthy (_buffer s)) && negb (_eof s)) eqn:E.
  - apply ready_test in E. destruct E, Hready; congruence.
  - destruct (_read_nowait_spec n (count_eof_access s) w
                (wf_count_eof_access s Hwf) (or_intror Hn))
      as (s' & Hrun & Hwf' & Hc & Hctl).
    exists s'. rewrite Hrun, content_count_eof_access in *.
    repeat split; auto.
    rewrite (control_status _ _ Hctl). apply status_count_eof_access.
Qed.

(** [read(n)], [n > 0], on an empty buffer before EOF. *)
Lemma read_parks (n : Z) (s : t) (w : World) :
  _exception s = None -> 0 < n -> _buffer s = [] -> _eof s = false ->
  read n s w =
  match _waiter s with
  | Some _ =>
      Raise (RuntimeError
               "read() called while another coroutine is already waiting for incoming data")
            s w
  | None =>
      Yield (length (futures w)) (in_read n)
            (set_waiter (Some (length (futures w))) s)
            (set_futures (futures w ++ [Pending]) w)
  end.
Proof.
  intros Hex Hn Hb He. unfold read. rewrite Hex.
  destruct (n =? 0) eqn:E0; [apply Z.eqb_eq in E0; lia |].
  destruct (n <? 0) eqn:E1; [apply Z.ltb_lt in E1; lia |].
  assert (Hc : count_eof_access s = s)
    by (unfold count_eof_access; rewrite He; reflexivity).
  rewrite Hc, Hb, He. simpl. unfold _wait.
  destruct (_waiter s); reflexivity.
Qed.



Lemma read_zero (s : t) (w : World) :
  _exception s = None -> read 0 s w = Return [] (count_eof_access s) w.
Proof. intros Hex. unfold read. rewrite Hex. reflexivity. Qed.




(** ** unread_data *)

Lemma unread_data_spec (data : bytes) (s : t) (w : World) :
  wf s -> data <> [] ->
  exists s',
    unread_data data s w = Return tt s' w /\
    wf s' /\ content s' = data ++ content s /\
    _buffer_size s' = _buffer_size s + len data /\
    hd_error (_buffer s') = Some data /\ _buffer_offset s' = 0 /\
    control s' = control s.
Proof.
  intros Hwf Hne. unfold unread_data.
  destruct data as [| x data]; [congruence |]. simpl truthy. cbv iota.
  simpl negb. cbv iota.
  apply wf_iff in Hwf. destruct Hwf as (Hall & Hsz & Hoff).
  destruct (_buffer_offset s =? 0) eqn:Eo.
  - apply Z.eqb_eq in Eo. eexists. split; [reflexivity |].
    assert (Hc : content s = concat (_buffer s)).
    { unfold content. destruct (_buffer s); [reflexivity |].
      rewrite Eo, slice_from_0. reflexivity. }
    split; [| repeat split; auto].
    + apply wf_iff. unfold content. simpl. rewrite Eo, slice_from_0.
      split; [constructor; [discriminate | exact Hall] |].
      split; [| unfold len; simpl; lia].
      rewrite Hsz, Hc. change (x :: data ++ concat (_buffer s))
        with ((x :: data) ++ concat (_buffer s)).
      rewrite len_app. lia.
    + unfold content at 1. simpl. rewrite Eo, slice_from_0, Hc. reflexivity.
  - apply Z.eqb_neq in Eo.
    destruct (_buffer s) as [| first rest] eqn:Hb; [congruence |].
    eexists. split; [reflexivity |].
    assert (Hs : slice_from first (_buffer_offset s) <> []).
    { rewrite slice_from_in_range by lia. intros E.
      assert (H := len_skipn first (_buffer_offset s) ltac:(lia)).
      rewrite E in H. unfold len in H at 1. simpl in H. lia. }
    inversion Hall; subst.
    split; [| repeat split; auto].
    + apply wf_iff. unfold content in *. simpl.
      split; [constructor; [discriminate | constructor; auto] |].
      split; [| unfold len; simpl; lia].
      rewrite Hb in Hsz. rewrite Hsz.
      change (x :: data ++ slice_from first (_buffer_offset s) ++ concat rest)
        with ((x :: data) ++ slice_from first (_buffer_offset s) ++ concat rest).
      rewrite (len_app _ (x :: data)). lia.
    + unfold content. simpl. rewrite Hb. reflexivity.
Qed.

Lemma upto_len_app (d l : bytes) : upto (len d) (d ++ l) = d /\ beyond (len d) (d ++ l) = l.
Proof.
  unfold upto, beyond, len.
  destruct (Z.of_nat (length d) =? -1) eqn:E; [apply Z.eqb_eq in E; lia |].
  rewrite Nat2Z.id. split.
  - rewrite firstn_app, Nat.sub_diag, firstn_all. simpl. apply app_nil_r.
  - rewrite skipn_app, Nat.sub_diag, skipn_all. reflexivity.
Qed.

Lemma status_exception (s s' : t) :
  status s' = status s -> _exception s' = _exception s.
Proof. unfold status. intros H. inversion H. reflexivity. Qed.

(** A [read(n)], [n >= 0], that returns leaves a well-formed reader with no
    stored exception. *)
Lemma read_returns_wf (n : Z) (s0 s : t) (w0 w : World) (d : bytes) :
  wf s0 -> 0 <= n -> read n s0 w0 = Return d s w ->
  wf s /\ _exception s = None.
Proof.
  intros Hwf Hn Hrun.
  destruct (_exception s0) as [e |] eqn:Hex;
    [unfold read in Hrun; rewrite Hex in Hrun; discriminate |].
  destruct (Z.eq_dec n 0) as [-> | Hnz].
  - rewrite read_zero in Hrun by exact Hex. inversion Hrun; subst.
    split; [apply wf_count_eof_access; exact Hwf |].
    rewrite (status_exception _ _ (status_count_eof_access s0)). exact Hex.
  - assert (Hpos : 0 < n) by lia.
    destruct (_buffer s0) as [| c rest] eqn:Hb.
    + destruct (_eof s0) eqn:He.
      * destruct (read_ready n s0 w0 Hwf Hex Hpos (or_intror He))
          as (s1 & Hrun1 & Hwf1 & _ & Hst).
        rewrite Hrun1 in Hrun. inversion Hrun; subst.
        split; [exact Hwf1 |]. rewrite (status_exception _ _ Hst). exact Hex.
      * rewrite (read_parks n s0 w0 Hex Hpos Hb He) in Hrun.
        destruct (_waiter s0); discriminate.
    + destruct (read_ready n s0 w0 Hwf Hex Hpos)
        as (s1 & Hrun1 & Hwf1 & _ & Hst); [left; rewrite Hb; discriminate |].
      rewrite Hrun1 in Hrun. inversion Hrun; subst.
      split; [exact Hwf1 |]. rewrite (status_exception _ _ Hst). exact Hex.
Qed.

(** C10.  On a well-formed reader with no stored exception:
    [unread_data(d)] with non-empty [d] puts [d] at the head of the deque and
    adds [len(d)] to the buffered size, so that the next [read(n)] returns
    the first [n] bytes of [d] followed by the older unread bytes;
    [unread_data(d)] followed by [read(len(d))] returns [d] and leaves the
    unread bytes as they were, in particular right after a read that
    returned [d]; and [unread_data(b'')] changes nothing. *)
Theorem unread_data_undoes_read (d : bytes) (s : t) (w : World) :
  wf s -> _exception s = None ->
  (d <> [] ->
   exists s',
     unread_data d s w = Return tt s' w /\
     hd_error (_buffer s') = Some d /\
     _buffer_size s' = _buffer_size s + len d /\
     content s' = d ++ content s /\
     forall n, 0 < n ->
       exists s'', read n s' w = Return (upto n (d ++ content s)) s'' w) /\
  (exists s' s'',
     unread_data d s w = Return tt s' w /\
     read (len d) s' w = Return d s'' w /\
     content s'' = content s) /\
  (forall n s0 w0 s1 s2 w1 w2,
     wf s0 -> 0 <= n ->
     read n s0 w0 = Return d s1 w1 ->
     unread_data d s1 w1 = Return tt s2 w2 ->
     exists s3, read (len d) s2 w2 = Return d s3 w2 /\ content s3 = content s1) /\
  unread_data [] s w = Return tt s w.
Proof.
  intros Hwf Hex.
  assert (Hround : forall (s : t) (w : World),
             wf s -> _exception s = None ->
             exists s' s'',
               unread_data d s w = Return tt s' w /\
               read (len d) s' w = Return d s'' w /\
               content s'' = content s).
  { clear s w Hwf Hex. intros s w Hwf Hex.
    destruct d as [| x d'] eqn:Hd.
    - exists s, (count_eof_access s). split; [reflexivity |].
      split; [apply read_zero; exact Hex | apply content_count_eof_access].
    - rewrite <- Hd.
      destruct (unread_data_spec d s w Hwf) as
        (s' & Hrun & Hwf' & Hc & _ & Hhd & _ & Hctl); [subst; discriminate |].
      destruct (read_ready (len d) s' w Hwf') as (s'' & Hrd & _ & Hc'' & _).
      + rewrite (status_exception _ _ (control_status _ _ Hctl)). exact Hex.
      + subst d. unfold len. simpl. lia.
      + left. intros E. rewrite E in Hhd. discriminate.
      + exists s', s''. rewrite Hc in Hrd, Hc''.
        destruct (upto_len_app d (content s)) as [Hu Hb].
        rewrite Hu in Hrd. rewrite Hb in Hc''. auto. }
  split; [| split; [| split]].
  - intros Hne.
    destruct (unread_data_spec d s w Hwf Hne) as
      (s' & Hrun & Hwf' & Hc & Hsz & Hhd & _ & Hctl).
    exists s'. repeat split; auto.
    intros n Hn.
    destruct (read_ready n s' w Hwf') as (s'' & Hrd & _); auto.
    + rewrite (status_exception _ _ (control_status _ _ Hctl)). exact Hex.
    + left. intros E. rewrite E in Hhd. discriminate.
    + exists s''. rewrite <- Hc. exact Hrd.
  - apply Hround; assumption.
  - intros n s0 w0 s1 s2 w1 w2 Hwf0 Hn Hread Hun.
    destruct (read_returns_wf n s0 s1 w0 w1 d Hwf0 Hn Hread) as [Hwf1 Hex1].
    destruct (Hround s1 w1 Hwf1 Hex1) as (s' & s'' & Hun' & Hrd & Hc).
    rewrite Hun' in Hun. inversion Hun; subst. eauto.
  - reflexivity.
Qed.

Lemma unread_data_undoes_read_witness :
  unread_data [] (fed [x68; x69] (__init__ 16)) idle_world
  = Return tt (fed [x68; x69] (__init__ 16)) idle_world.
Proof.
  apply (unread_data_undoes_read [x68] (fed [x68; x69] (__init__ 16)) idle_world);
    reflexivity.
Defined.

(** ** Futures *)

Lemma nth_error_update (A : Type) (l : list A) (i : nat) (x y : A) :
  nth_error l i = Some y -> nth_error (update l i x) i = Some x.
Proof.
  revert i. induction l as [| a l IH]; intros [| i]; simpl; try discriminate; auto.
Qed.

Lemma future_state_created (w : World) :
  future_state (set_futures (futures w ++ [Pending]) w) (length (futures w))
  = Some Pending.
Proof.
  unfold future_state. simpl. rewrite nth_error_app2 by lia.
  rewrite Nat.sub_diag. reflexivity.
Qed.

Lemma wake_pending (f : fut) (r : future) (w : World) :
  future_state w f = Some Pending ->
  wake f r w = Some (resolved f r w) /\
  future_state (resolved f r w) f = Some r.
Proof.
  intros H. unfold wake, cancelled, resolve. rewrite H. split; [reflexivity |].
  unfold future_state in *. simpl. eapply nth_error_update; eauto.
Qed.



Lemma overridden_plain (a : bytes) (s : t) (w : World) :
  flow_control s = None -> overridden (Return a s w) = Return a s w.
Proof. intros H. simpl. rewrite H. reflexivity. Qed.

Lemma status_fields (s s' : t) :
  status s' = status s ->
  _eof s' = _eof s /\ _waiter s' = _waiter s /\ _exception s' = _exception s /\
  _limit s' = _limit s /\ flow_control s' = flow_control s.
Proof. unfold status. intros H. inversion H. auto. Qed.


Lemma content_buffer_nil (s : t) : _buffer s = [] -> content s = [].
Proof. unfold content. intros ->. reflexivity. Qed.


(** ** readexactly *)





Lemma upto_pos (n : Z) (l : bytes) : 0 < n -> upto n l = firstn (Z.to_nat n) l.
Proof.
  intros H. unfold upto. destruct (n =? -1) eqn:E; [apply Z.eqb_eq in E; lia | reflexivity].
Qed.

Lemma beyond_pos (n : Z) (l : bytes) : 0 < n -> beyond n l = skipn (Z.to_nat n) l.
Proof.
  intros H. unfold beyond. destruct (n =? -1) eqn:E; [apply Z.eqb_eq in E; lia | reflexivity].
Qed.







Lemma count_eof_access_before_eof (s : t) :
  _eof s = false -> count_eof_access s = s.
Proof. intros He. unfold count_eof_access. rewrite He. reflexivity. Qed.



(** [readexactly] on a reader that has already seen EOF. *)
Lemma readexactly_at_eof (n : Z) (s : t) (w : World) :
  wf s -> _exception s = None -> flow_control s = None -> _eof s = true ->
  0 < n ->
  readexactly_answer [] n (content s) (readexactly n s w).
Proof.
  intros Hwf Hex Hfc He Hn. unfold readexactly. rewrite Hex.
  destruct (n >? 0) eqn:E; [| rewrite Z.gtb_ltb in E; apply Z.ltb_ge in E; lia].
  unfold self_read at 1.
  destruct (read_ready n s w Hwf Hex Hn (or_intror He))
    as (s1 & Hrun & Hwf1 & Hc1 & Hst).
  destruct (status_fields _ _ Hst) as (He1 & _ & Hex1 & _ & Hfc1).
  rewrite Hrun. rewrite overridden_plain by congruence.
  rewrite upto_pos in * by exact Hn. rewrite beyond_pos in Hc1 by exact Hn.
  unfold readexactly_fuel, readexactly_answer. simpl readexactly_loop.
  destruct (content s) as [| x c'] eqn:Hc.
  - rewrite firstn_nil. simpl.
    destruct (n <=? len (@nil byte)) eqn:E2;
      [apply Z.leb_le in E2; unfold len in E2; simpl in E2; lia |].
    unfold len. simpl. rewrite Z.sub_0_r. eauto.
  - rewrite <- Hc in *.
    assert (Ht : truthy (firstn (Z.to_nat n) (content s)) = true).
    { rewrite Hc. destruct (Z.to_nat n) eqn:En; [lia | reflexivity]. }
    rewrite Ht.
    destruct (n <=? len (content s)) eqn:E2.
    + apply Z.leb_le in E2.
      rewrite (len_firstn (content s) n) by lia.
      rewrite Z.sub_diag. simpl. rewrite app_nil_r. eauto.
    + apply Z.leb_gt in E2.
      assert (Hall : firstn (Z.to_nat n) (content s) = content s)
        by (apply firstn_all2; unfold len in *; lia).
      rewrite Hall.
      destruct (n - len (content s) >? 0) eqn:E3;
        [| rewrite Z.gtb_ltb in E3; apply Z.ltb_ge in E3; lia].
      unfold self_read.
      destruct (read_ready (n - len (content s)) s1 w Hwf1)
        as (s2 & Hrun2 & _ & _ & Hst2);
        [congruence | lia | right; congruence |].
      destruct (status_fields _ _ Hst2) as (_ & _ & _ & _ & Hfc2).
      assert (Hnil : content s1 = [])
        by (rewrite Hc1; apply skipn_all2; unfold len in *; lia).
      rewrite Hrun2, Hnil, upto_nil.
      rewrite overridden_plain by congruence.
      simpl. rewrite app_nil_r. eauto.
Qed.




(** ** readline *)





















End StreamReaderFacts.

(** * StreamWriter *)

Module StreamWriterFacts.
Import StreamWriter.

Lemma acquire_available (cb : callback) (self : t) :
  available self = true ->
  acquire cb self =
  mk (_waiters self) false (transport self)
     (invoked self ++ [(cb, the_transport (transport self))]).
Proof. intros H. unfold acquire. rewrite H. reflexivity. Qed.

Lemma acquire_held (cb : callback) (self : t) :
  available self = false ->
  acquire cb self =
  mk (_waiters self ++ [cb]) false (transport self) (invoked self).
Proof. intros H. unfold acquire. rewrite H. reflexivity. Qed.

(** Releasing a writer as often as the callbacks [first] at the head of its
    queue invokes each of them once, oldest first, and leaves the later
    ones queued. *)
Lemma release_times_fifo (first : list callback) :
  forall (later : list callback) (av : bool) (tr : transport_handle)
         (inv : list (callback * argument)),
    release_times (length first) (mk (first ++ later) av tr inv)
    = mk later (match first with [] => av | _ => false end) tr
         (inv ++ map (fun cb => (cb, the_writer)) first).
Proof.
  induction first as [| cb first IH]; intros later av tr inv; simpl.
  - rewrite app_nil_r. reflexivity.
  - unfold release at 1. simpl. rewrite IH, <- app_assoc. simpl.
    destruct first; reflexivity.
Qed.

(** A callback queued while the writer is held is not invoked by
    [acquire]; the releases that serve the callbacks queued before it leave
    it queued, and the next release invokes it. *)
Lemma queued_callback_waits_its_turn (cb : callback) (self : t) :
  available self = false ->
  invoked (acquire cb self) = invoked self /\
  _waiters (acquire cb self) = _waiters self ++ [cb] /\
  release_times (length (_waiters self)) (acquire cb self)
  = mk [cb] false (transport self)
       (invoked self ++ map (fun c => (c, the_writer)) (_waiters self)) /\
  release_times (S (length (_waiters self))) (acquire cb self)
  = mk [] false (transport self)
       (invoked self ++ map (fun c => (c, the_writer)) (_waiters self)
        ++ [(cb, the_writer)]).
Proof.
  intros Hheld. rewrite (acquire_held cb self Hheld).
  destruct self as [queue av tr inv]. cbn [_waiters invoked transport available].
  split; [reflexivity |]. split; [reflexivity |].
  assert (H1 : release_times (length queue) (mk (queue ++ [cb]) false tr inv)
               = mk [cb] false tr (inv ++ map (fun c => (c, the_writer)) queue)).
  { rewrite release_times_fifo. destruct queue; reflexivity. }
  split; [exact H1 |].
  assert (Hadd : forall n x, release_times (S n) x = release (release_times n x)).
  { induction n; intros; [reflexivity |].
    change (release_times (S (S n)) x) with (release_times (S n) (release x)).
    rewrite IHn. reflexivity. }
  rewrite Hadd, H1. unfold release. simpl. rewrite <- app_assoc. reflexivity.
Qed.

(** C3.  [acquire] on an available writer invokes the callback at once with
    the transport and marks the writer held; on a held writer it queues the
    callback behind the earlier ones and invokes nothing.  [release] with an
    empty queue marks the writer available; with a queued callback it
    invokes exactly the oldest one, but hands it the writer itself where
    [acquire] hands over the transport. *)
Theorem release_passes_writer_not_transport
  (cb : callback) (rest : list callback) (av : bool) (tr : transport_handle)
  (inv : list (callback * argument)) :
  acquire cb (mk rest true tr inv)
  = mk rest false tr (inv ++ [(cb, the_transport tr)]) /\
  acquire cb (mk rest false tr inv) = mk (rest ++ [cb]) false tr inv /\
  release (mk [] av tr inv) = mk [] true tr inv /\
  release (mk (cb :: rest) av tr inv)
  = mk rest false tr (inv ++ [(cb, the_writer)]) /\
  the_writer <> the_transport tr.
Proof. repeat split. discriminate. Qed.

(** The scenario of the specification: A holds the lease, B and C queue in
    that order; A's release runs B only, B's release runs C; B and C receive
    the writer, A received the transport. *)
Example writer_lease_scenario :
  let w0 := __init__ 7%nat in
  let w1 := acquire 1%nat w0 in                      (* A *)
  let w2 := acquire 3%nat (acquire 2%nat w1) in      (* B, then C *)
  invoked w2 = [(1%nat, the_transport 7%nat)] /\
  invoked (release w2)
  = [(1%nat, the_transport 7%nat); (2%nat, the_writer)] /\
  invoked (release (release w2))
  = [(1%nat, the_transport 7%nat); (2%nat, the_writer); (3%nat, the_writer)] /\
  available (release (release (release w2))) = true.
Proof. repeat split. Qed.

End StreamWriterFacts.

(** * DataQueue, and what StreamReader and DataQueue do on misuse and on
      a stored exception *)

Module DataQueueFacts.
Import StreamReader StreamReaderFacts.

Section Items.

Variable item : Type.

Lemma dq_read_second_waiter (q : DataQueue.t item) (w : World) (f : fut) :
  DataQueue._waiter q = Some f -> DataQueue._exception q = None ->
  DataQueue._buffer q = [] -> DataQueue._eof q = false ->
  DataQueue.read q w = DataQueue.Raise (AssertionError "") q w.
Proof.
  intros Hw Hex Hb He. unfold DataQueue.read. rewrite Hb, He, Hex, Hw. reflexivity.
Qed.

(** [DataQueue.feed_data] never looks at [_eof]. *)
Lemma dq_feed_data_idle (data : item) (size : Z) (q : DataQueue.t item) (w : World) :
  DataQueue._waiter q = None ->
  DataQueue.feed_data data size q w =
  DataQueue.Return tt
    (DataQueue.mk (DataQueue._eof q) None (DataQueue._exception q)
       (DataQueue._size q + size) (DataQueue._buffer q ++ [(data, size)])) w.
Proof.
  intros Hw. unfold DataQueue.feed_data. simpl. rewrite Hw. reflexivity.
Qed.

End Items.

Lemma sr_second_wait (name : string) (k : frame) (s : t) (w : World) (f : fut) :
  _waiter s = Some f ->
  exists e, _wait name k s w = Raise e s w /\ is_usage_error e = true.
Proof. intros H. unfold _wait. rewrite H. eexists. split; reflexivity. Qed.

(** C4.  On a [StreamReader] that has a read parked (its [_waiter] is set),
    with nothing buffered, before EOF and with no stored exception, each of
    [read(n)] ([n <> 0]), [readany()], [readline()] and [readexactly(n)]
    ([n > 0]) raises a usage error at once and leaves reader, waiter and
    futures exactly as they were; [DataQueue.read] does the same on a
    [DataQueue] in that state.  [StreamReader.feed_data] after [feed_eof]
    raises a usage error and changes nothing.  [DataQueue.feed_data]
    makes no such check: with nobody waiting it stores the item, after EOF
    as before it. *)
Theorem misuse_is_a_usage_error (s : t) (w : World) (f : fut) :
  _waiter s = Some f -> _exception s = None -> _buffer s = [] ->
  _eof s = false ->
  (forall n, n <> 0 ->
     exists e, read n s w = Raise e s w /\ is_usage_error e = true) /\
  (exists e, readany s w = Raise e s w /\ is_usage_error e = true) /\
  (exists e, readline s w = Raise e s w /\ is_usage_error e = true) /\
  (forall n, 0 < n ->
     exists e, readexactly n s w = Raise e s w /\ is_usage_error e = true) /\
  (forall (item : Type) (q : DataQueue.t item) (g : fut),
     DataQueue._waiter q = Some g -> DataQueue._exception q = None ->
     DataQueue._buffer q = [] -> DataQueue._eof q = false ->
     exists e, DataQueue.read q w = DataQueue.Raise e q w /\
               is_usage_error e = true) /\
  (forall (data : bytes) (s1 : t) (w1 : World),
     _eof s1 = true ->
     exists e, feed_data data s1 w1 = Raise e s1 w1 /\
               is_usage_error e = true) /\
  (forall (item : Type) (data : item) (size : Z) (q : DataQueue.t item)
          (w1 : World),
     DataQueue._waiter q = None ->
     DataQueue.feed_data data size q w1 =
     DataQueue.Return tt
       (DataQueue.mk (DataQueue._eof q) None (DataQueue._exception q)
          (DataQueue._size q + size) (DataQueue._buffer q ++ [(data, size)]))
       w1).
Proof.
  intros Hw Hex Hb He.
  assert (Hreadany : exists e, readany s w = Raise e s w /\ is_usage_error e = true).
  { unfold readany. rewrite Hex, Hb, He. simpl. apply sr_second_wait with f. exact Hw. }
  assert (Hread : forall n, 0 < n ->
            exists e, read n s w = Raise e s w /\ is_usage_error e = true).
  { intros n Hn. rewrite (read_parks n s w Hex Hn Hb He), Hw.
    eexists. split; reflexivity. }
  split; [| split; [| split; [| split; [| split; [| split]]]]].
  - intros n Hn. destruct (Z_lt_ge_dec 0 n) as [Hpos | Hneg]; [auto |].
    unfold read. rewrite Hex.
    destruct (n =? 0) eqn:E0; [apply Z.eqb_eq in E0; lia |].
    destruct (n <? 0) eqn:E1; [| apply Z.ltb_ge in E1; lia].
    rewrite count_eof_access_before_eof by exact He.
    unfold self_readany. destruct Hreadany as (e & -> & Hu).
    exists e. split; [reflexivity | exact Hu].
  - exact Hreadany.
  - unfold readline, readline_from. rewrite Hex, Hb. simpl. rewrite Hb.
    unfold readline_after_scan. rewrite He. apply sr_second_wait with f. exact Hw.
  - intros n Hn. unfold readexactly. rewrite Hex.
    destruct (n >? 0) eqn:E; [| rewrite Z.gtb_ltb in E; apply Z.ltb_ge in E; lia].
    unfold self_read. destruct (Hread n Hn) as (e & -> & Hu).
    exists e. split; [reflexivity | exact Hu].
  - intros item q g Hqw Hqex Hqb Hqe.
    rewrite (dq_read_second_waiter item q w g Hqw Hqex Hqb Hqe).
    eexists. split; reflexivity.
  - intros data s1 w1 He1. unfold feed_data. rewrite He1.
    eexists. split; reflexivity.
  - intros item data size q w1 Hqw. apply dq_feed_data_idle. exact Hqw.
Qed.

Lemma misuse_is_a_usage_error_witness :
  exists e,
    readany (set_waiter (Some O) (__init__ 16))
            (set_futures [Pending] idle_world)
    = Raise e (set_waiter (Some O) (__init__ 16))
            (set_futures [Pending] idle_world) /\
    is_usage_error e = true.
Proof.
  apply (misuse_is_a_usage_error (set_waiter (Some O) (__init__ 16))
           (set_futures [Pending] idle_world) O);
    reflexivity.
Defined.

(** The claim fails for [DataQueue]: an item fed after [feed_eof] is
    accepted, no usage error is raised. *)
Lemma dq_feed_data_after_eof_accepted :
  exists q,
    DataQueue.feed_eof (@DataQueue.__init__ nat) idle_world
    = DataQueue.Return tt q idle_world /\
    DataQueue._eof q = true /\
    ~ (exists e q' w',
         DataQueue.feed_data 7%nat 1 q idle_world = DataQueue.Raise e q' w' /\
         is_usage_error e = true) /\
    DataQueue.feed_data 7%nat 1 q idle_world
    = DataQueue.Return tt (DataQueue.mk true None None 1 [(7%nat, 1)]) idle_world.
Proof.
  eexists. split; [reflexivity |]. split; [reflexivity |]. split; [| reflexivity].
  intros (e & q' & w' & H & _). discriminate.
Qed.

(** ** The stored exception *)

Lemma kept_trans (A B : Type) (s s1 : t) (o : outcome A) :
  _exception s1 = _exception s -> kept s1 o -> kept s o.
Proof. unfold kept. intros H Hk s' Hf. rewrite <- H. auto. Qed.

Lemma kept_overridden (s : t) (o : outcome bytes) :
  kept s o -> kept s (overridden o).
Proof.
  unfold kept. intros H s' Hf. apply H.
  destruct o as [a s0 w0 | | |]; simpl in *; auto.
  destruct (flow_control s0); simpl in *; auto.
Qed.

Lemma _read_nowait_chunk_keeps (n : Z) (s s' : t) (data : bytes) :
  _read_nowait_chunk n s = Some (data, s') -> _exception s' = _exception s.
Proof.
  unfold _read_nowait_chunk. destruct (_buffer s) as [| first rest]; [discriminate |].
  destruct (negb (n =? -1) && (len first - _buffer_offset s >? n));
    [| destruct (negb (_buffer_offset s =? 0))];
    intros H; inversion H; reflexivity.
Qed.

Lemma _read_nowait_loop_keeps (fuel : nat) :
  forall (n : Z) (chunks : list bytes) (s : t) (w : World),
    kept s (_read_nowait_loop fuel n chunks s w).
Proof.
  induction fuel as [| fuel IH]; intros n chunks s w s' Hf; simpl in Hf.
  - destruct (_buffer s); simpl in Hf; [inversion Hf; reflexivity | discriminate].
  - destruct (_buffer s); [simpl in Hf; inversion Hf; reflexivity |].
    destruct (_read_nowait_chunk n s) as [[chunk s1] |] eqn:Hc;
      [| simpl in Hf; inversion Hf; reflexivity].
    pose proof (_read_nowait_chunk_keeps n s s1 chunk Hc) as H1.
    destruct (n =? -1); [rewrite <- H1; eapply IH; eauto |].
    destruct (n - len chunk =? 0);
      [simpl in Hf; inversion Hf; subst; exact H1 | rewrite <- H1; eapply IH; eauto].
Qed.

Lemma _read_nowait_keeps (n : Z) (s : t) (w : World) :
  kept s (_read_nowait n s w).
Proof. apply _read_nowait_loop_keeps. Qed.

Lemma _wait_keeps (name : string) (k : frame) (s : t) (w : World) :
  kept s (_wait name k s w).
Proof.
  unfold kept, _wait. intros s'. destruct (_waiter s); simpl; intros H;
    inversion H; reflexivity.
Qed.

Lemma readany_keeps (s : t) (w : World) : kept s (readany s w).
Proof.
  unfold readany. destruct (_exception s) eqn:Hex.
  - intros s' H. inversion H. reflexivity.
  - destruct (negb (truthy (_buffer s)) && negb (_eof s));
      [apply _wait_keeps | apply _read_nowait_keeps].
Qed.

Lemma read_until_eof_keeps (fuel : nat) :
  forall (blocks : list bytes) (s : t) (o : outcome bytes),
    kept s o -> kept s (read_until_eof fuel blocks o).
Proof.
  induction fuel as [| fuel IH]; intros blocks s o Hk;
    destruct o as [block s0 w0 | e s0 w0 | f k s0 w0 |]; simpl;
    try (intros s' H; apply Hk; exact H); try (intros s' H; discriminate).
  - destruct (truthy block); intros s' H; [discriminate | apply Hk; exact H].
  - destruct (truthy block); [| intros s' H; apply Hk; exact H].
    apply IH. apply kept_trans with s0; [exact unit | apply Hk; reflexivity |].
    apply kept_overridden, readany_keeps.
Qed.

Lemma count_eof_access_keeps (s : t) :
  _exception (count_eof_access s) = _exception s.
Proof.
  unfold count_eof_access. destruct (_eof s && negb (truthy (_buffer s))); reflexivity.
Qed.

Lemma read_keeps (n : Z) (s : t) (w : World) : kept s (read n s w).
Proof.
  unfold read. destruct (_exception s) eqn:Hex.
  - intros s' H. inversion H. reflexivity.
  - apply kept_trans with (count_eof_access s);
      [exact unit | apply count_eof_access_keeps |].
    destruct (n =? 0); [intros s' H; inversion H; reflexivity |].
    destruct (n <? 0).
    + apply read_until_eof_keeps, kept_overridden, readany_keeps.
    + destruct (negb (truthy (_buffer (count_eof_access s)))
                && negb (_eof (count_eof_access s)));
        [apply _wait_keeps | apply _read_nowait_keeps].
Qed.

Lemma readexactly_loop_keeps (fuel : nat) :
  forall (blocks : list bytes) (n : Z) (s : t) (o : outcome bytes),
    kept s o -> kept s (readexactly_loop fuel blocks n o).
Proof.
  induction fuel as [| fuel IH]; intros blocks n s o Hk;
    destruct o as [block s0 w0 | e s0 w0 | f k s0 w0 |]; simpl;
    try (intros s' H; apply Hk; exact H); try (intros s' H; discriminate).
  - destruct (truthy block); [| intros s' H; apply Hk; exact H].
    destruct (n - len block >? 0); intros s' H; [discriminate | apply Hk; exact H].
  - destruct (truthy block); [| intros s' H; apply Hk; exact H].
    destruct (n - len block >? 0); [| intros s' H; apply Hk; exact H].
    apply IH. apply kept_trans with s0; [exact unit | apply Hk; reflexivity |].
    apply kept_overridden, read_keeps.
Qed.

Lemma readexactly_keeps (n : Z) (s : t) (w : World) : kept s (readexactly n s w).
Proof.
  unfold readexactly. destruct (_exception s) eqn:Hex.
  - intros s' H. inversion H. reflexivity.
  - destruct (n >? 0); [| intros s' H; inversion H; reflexivity].
    apply readexactly_loop_keeps, kept_overridden, read_keeps.
Qed.

Lemma readline_after_scan_keeps (b : bool) (line : list bytes) (size : Z)
  (s : t) (w : World) :
  kept s (readline_after_scan b line size s w).
Proof.
  unfold readline_after_scan.
  destruct (_eof s); [intros s' H; inversion H; reflexivity |].
  destruct b; [apply _wait_keeps | intros s' H; inversion H; reflexivity].
Qed.

Lemma readline_scan_keeps (fuel : nat) :
  forall (line : list bytes) (size : Z) (s : t) (w : World),
    kept s (readline_scan fuel line size s w).
Proof.
  induction fuel as [| fuel IH]; intros line size s w; simpl.
  - destruct (_buffer s); [apply readline_after_scan_keeps | intros s' H; discriminate].
  - destruct (_buffer s) as [| first rest]; [apply readline_after_scan_keeps |].
    destruct (_read_nowait_chunk _ s) as [[data s1] |] eqn:Hc;
      [| intros s' H; inversion H; reflexivity].
    pose proof (_read_nowait_chunk_keeps _ s s1 data Hc) as H1.
    apply kept_trans with s1; [exact unit | exact H1 |].
    destruct (size + len data >? _limit s1); [intros s' H; inversion H; reflexivity |].
    destruct (find first newline (_buffer_offset s) + 1 =? 0);
      [apply IH | apply readline_after_scan_keeps].
Qed.

Lemma readline_keeps (s : t) (w : World) : kept s (readline s w).
Proof.
  unfold readline. destruct (_exception s) eqn:Hex.
  - intros s' H. inversion H. reflexivity.
  - apply readline_scan_keeps.
Qed.

Lemma read_nowait_keeps (n : Z) (s : t) (w : World) : kept s (read_nowait n s w).
Proof.
  unfold read_nowait. destruct (_exception s) eqn:Hex.
  - intros s' H. inversion H. reflexivity.
  - destruct (_waiter s) as [f |]; [| apply _read_nowait_keeps].
    destruct (negb (done w f)); [intros s' H; inversion H; reflexivity |].
    apply _read_nowait_keeps.
Qed.

Lemma resume_keeps (k : frame) (f : fut) (s : t) (w : World) :
  kept s (resume k f s w).
Proof.
  unfold resume, _wait_resumed.
  destruct (future_state w f) as [[| | v | e] |];
    try (intros s' H; inversion H; reflexivity).
  apply kept_trans with (set_waiter None s); [exact unit | reflexivity |].
  destruct k as [n | | line size | blocks | blocks n].
  - apply kept_overridden, _read_nowait_keeps.
  - apply kept_overridden, _read_nowait_keeps.
  - apply kept_overridden, readline_scan_keeps.
  - apply kept_overridden, read_until_eof_keeps, kept_overridden, _read_nowait_keeps.
  - apply kept_overridden, readexactly_loop_keeps, kept_overridden, _read_nowait_keeps.
Qed.

Lemma feed_data_keeps (data : bytes) (s : t) (w : World) :
  kept s (feed_data data s w).
Proof.
  unfold feed_data, kept. intros s'.
  destruct (_eof s); [intros H; inversion H; reflexivity |].
  destruct (negb (truthy data)); [intros H; inversion H; reflexivity |].
  simpl. destruct (_waiter s) as [f |]; [| intros H; inversion H; reflexivity].
  destruct (wake f (Result false) w); intros H; inversion H; reflexivity.
Qed.

Lemma feed_eof_keeps (s : t) (w : World) : kept s (feed_eof s w).
Proof.
  unfold feed_eof, kept. intros s'. simpl.
  destruct (_waiter s) as [f |].
  - destruct (wake f (Result true) w) as [w1 |]; simpl;
      [| intros H; inversion H; reflexivity].
    destruct (_eof_waiter s) as [g |]; [| intros H; inversion H; reflexivity].
    destruct (wake g (Result true) w1); intros H; inversion H; reflexivity.
  - simpl. destruct (_eof_waiter s) as [g |]; [| intros H; inversion H; reflexivity].
    destruct (wake g (Result true) w); intros H; inversion H; reflexivity.
Qed.

Lemma unread_data_keeps (data : bytes) (s : t) (w : World) :
  kept s (unread_data data s w).
Proof.
  unfold unread_data, kept. intros s'.
  destruct (negb (truthy data)); [intros H; inversion H; reflexivity |].
  destruct (_buffer_offset s =? 0); [intros H; inversion H; reflexivity |].
  destruct (_buffer s); intros H; inversion H; reflexivity.
Qed.

Lemma set_exception_stores (exc : exn) (s : t) (w : World) :
  forall s', final_state (set_exception exc s w) = Some s' ->
             _exception s' = Some exc.
Proof.
  intros s'. unfold set_exception. simpl.
  destruct (_waiter s) as [f |].
  - destruct (wake f (Failed exc) w) as [w1 |]; simpl;
      [| intros H; inversion H; reflexivity].
    destruct (_eof_waiter s) as [g |]; [| intros H; inversion H; reflexivity].
    destruct (wake g (Failed exc) w1); intros H; inversion H; reflexivity.
  - simpl. destruct (_eof_waiter s) as [g |]; [| intros H; inversion H; reflexivity].
    destruct (wake g (Failed exc) w); intros H; inversion H; reflexivity.
Qed.

(** [set_exception] with a read parked on a pending future. *)
Lemma set_exception_wakes (exc : exn) (f : fut) (s : t) (w : World) :
  _waiter s = Some f -> _eof_waiter s = None ->
  future_state w f = Some Pending ->
  set_exception exc s w
  = Return tt (set_waiter None (set_exception_field (Some exc) s))
      (resolved f (Failed exc) w) /\
  future_state (resolved f (Failed exc) w) f = Some (Failed exc).
Proof.
  intros Hw Hew Hf. unfold set_exception. simpl. rewrite Hw.
  destruct (wake_pending f (Failed exc) w Hf) as [-> Hs].
  simpl. rewrite Hew. split; [reflexivity | exact Hs].
Qed.

Lemma set_exception_idle (exc : exn) (s : t) (w : World) :
  _waiter s = None -> _eof_waiter s = None ->
  set_exception exc s w = Return tt (set_exception_field (Some exc) s) w.
Proof.
  intros Hw Hew. unfold set_exception. simpl. rewrite Hw. simpl. rewrite Hew.
  reflexivity.
Qed.

(** A coroutine parked on a future that was failed with [exc] raises [exc]
    when it is stepped, whatever method it is in. *)
Lemma resume_failed (exc : exn) (k : frame) (f : fut) (s : t) (w : World) :
  future_state w f = Some (Failed exc) ->
  resume k f s w = Raise exc (set_waiter None s) w.
Proof. intros H. unfold resume, _wait_resumed. rewrite H. reflexivity. Qed.

Lemma reads_replay (exc : exn) (s : t) (w : World) :
  _exception s = Some exc ->
  (forall n, read n s w = Raise exc s w) /\
  readany s w = Raise exc s w /\
  readline s w = Raise exc s w /\
  (forall n, readexactly n s w = Raise exc s w) /\
  (forall n, read_nowait n s w = Raise exc s w).
Proof.
  intros H. unfold read, readany, readline, readexactly, read_nowait.
  rewrite H. repeat split.
Qed.

Section QueueItems.

Variable item : Type.

Lemma dq_set_exception_spec (exc : exn) (q : DataQueue.t item) (w : World) :
  DataQueue._exception (fst (DataQueue.set_exception exc q w)) = Some exc /\
  DataQueue._waiter (fst (DataQueue.set_exception exc q w)) = None /\
  DataQueue._buffer (fst (DataQueue.set_exception exc q w)) = DataQueue._buffer q /\
  (forall f, DataQueue._waiter q = Some f -> future_state w f = Some Pending ->
     future_state (snd (DataQueue.set_exception exc q w)) f = Some (Failed exc)).
Proof.
  unfold DataQueue.set_exception. simpl.
  destruct (DataQueue._waiter q) as [f |] eqn:Hw; simpl.
  - destruct (done w f) eqn:Hd.
    + simpl. repeat split. intros g Hg Hp. inversion Hg; subst.
      unfold done in Hd. rewrite Hp in Hd. discriminate.
    + unfold fut_set_exception.
      destruct (resolve f (Failed exc) w) as [w1 |] eqn:Hr; simpl.
      * repeat split. intros g Hg Hp. inversion Hg; subst.
        destruct (wake_pending g (Failed exc) w Hp) as [_ Hs].
        unfold resolve in Hr. rewrite Hp in Hr. inversion Hr. exact Hs.
      * repeat split. intros g Hg Hp. inversion Hg; subst.
        unfold resolve in Hr. rewrite Hp in Hr. discriminate.
  - repeat split. intros f Hf. discriminate.
Qed.

Lemma dq_read_empty_raises (exc : exn) (q : DataQueue.t item) (w : World) :
  DataQueue._exception q = Some exc -> DataQueue._buffer q = [] ->
  DataQueue.read q w = DataQueue.Raise exc q w.
Proof.
  intros Hex Hb. unfold DataQueue.read, DataQueue.read_buffered.
  rewrite Hb, Hex. destruct (DataQueue._eof q); reflexivity.
Qed.

Lemma dq_read_buffered_first (q : DataQueue.t item) (w : World)
  (data : item) (size : Z) (rest : list (item * Z)) :
  DataQueue._buffer q = (data, size) :: rest ->
  DataQueue.read q w
  = DataQueue.Return data
      (DataQueue.mk (DataQueue._eof q) (DataQueue._waiter q)
         (DataQueue._exception q) (DataQueue._size q - size) rest) w.
Proof.
  intros Hb. unfold DataQueue.read, DataQueue.read_buffered. rewrite Hb. reflexivity.
Qed.

Lemma dq_resume_failed (exc : exn) (f : fut) (q : DataQueue.t item) (w : World) :
  future_state w f = Some (Failed exc) ->
  exists q', DataQueue.resume f q w = DataQueue.Raise exc q' w /\
             DataQueue._exception q' = DataQueue._exception q.
Proof.
  intros H. unfold DataQueue.resume. rewrite H.
  destruct exc; eexists; split; reflexivity.
Qed.

Lemma dq_keeps (q : DataQueue.t item) (w : World) :
  (forall data size,
     DataQueue._exception (DataQueue.final_state (DataQueue.feed_data data size q w))
     = DataQueue._exception q) /\
  DataQueue._exception (DataQueue.final_state (DataQueue.feed_eof q w))
  = DataQueue._exception q /\
  DataQueue._exception (DataQueue.final_state (DataQueue.read q w))
  = DataQueue._exception q /\
  (forall f,
     DataQueue._exception (DataQueue.final_state (DataQueue.resume f q w))
     = DataQueue._exception q).
Proof.
  split; [| split; [| split]].
  - intros data size. unfold DataQueue.feed_data. simpl.
    destruct (DataQueue._waiter q) as [f |]; [| reflexivity].
    destruct (cancelled w f); [reflexivity |].
    destruct (set_result f true w); reflexivity.
  - unfold DataQueue.feed_eof. simpl.
    destruct (DataQueue._waiter q) as [f |]; [| reflexivity].
    destruct (cancelled w f); [reflexivity |].
    destruct (set_result f false w); reflexivity.
  - unfold DataQueue.read, DataQueue.read_buffered.
    destruct (negb (truthy (DataQueue._buffer q)) && negb (DataQueue._eof q)).
    + destruct (DataQueue._exception q) eqn:E; [simpl; congruence |].
      destruct (DataQueue._waiter q); simpl; congruence.
    + destruct (DataQueue._buffer q) as [| [d sz] rest]; [| reflexivity].
      destruct (DataQueue._exception q) eqn:E; simpl; congruence.
  - intros f. unfold DataQueue.resume, DataQueue.read_buffered.
    destruct (future_state w f) as [[| | v | e] |]; try reflexivity.
    + destruct (DataQueue._buffer q) as [| [d sz] rest]; [| reflexivity].
      destruct (DataQueue._exception q) eqn:E; simpl; congruence.
    + destruct e; reflexivity.
Qed.

End QueueItems.

(** C5.  [set_exception(exc)] on a [StreamReader] stores [exc] and fails
    the future of the parked read, if there is one, with [exc]; a coroutine
    stepped on a future failed with [exc] raises [exc]; while [exc] is
    stored, [read], [readany], [readline], [readexactly] and [read_nowait]
    raise it at once; and [feed_data], [feed_eof], [unread_data], the reads
    and the continuation of a parked read leave the stored exception as it
    is, only another [set_exception] replaces it.  [DataQueue] stores and
    keeps [exc] the same way and fails its waiter with it, but its [read]
    raises [exc] only once no item is buffered: items already queued are
    handed out first. *)
Theorem stored_exception_is_replayed (exc : exn) :
  (forall s w,
     _waiter s = None -> _eof_waiter s = None ->
     set_exception exc s w = Return tt (set_exception_field (Some exc) s) w) /\
  (forall f s w,
     _waiter s = Some f -> _eof_waiter s = None ->
     future_state w f = Some Pending ->
     set_exception exc s w
     = Return tt (set_waiter None (set_exception_field (Some exc) s))
         (resolved f (Failed exc) w) /\
     future_state (resolved f (Failed exc) w) f = Some (Failed exc)) /\
  (forall k f s w,
     future_state w f = Some (Failed exc) ->
     resume k f s w = Raise exc (set_waiter None s) w) /\
  (forall s w,
     _exception s = Some exc ->
     (forall n, read n s w = Raise exc s w) /\
     readany s w = Raise exc s w /\
     readline s w = Raise exc s w /\
     (forall n, readexactly n s w = Raise exc s w) /\
     (forall n, read_nowait n s w = Raise exc s w)) /\
  (forall s w,
     (forall data, kept s (feed_data data s w)) /\
     kept s (feed_eof s w) /\
     (forall data, kept s (unread_data data s w)) /\
     (forall n, kept s (read n s w)) /\ kept s (readany s w) /\
     kept s (readline s w) /\ (forall n, kept s (readexactly n s w)) /\
     (forall n, kept s (read_nowait n s w)) /\
     (forall k f, kept s (resume k f s w)) /\
     (forall exc' s', final_state (set_exception exc' s w) = Some s' ->
                      _exception s' = Some exc')) /\
  (forall (item : Type) (q : DataQueue.t item) (w : World),
     DataQueue._exception (fst (DataQueue.set_exception exc q w)) = Some exc /\
     DataQueue._waiter (fst (DataQueue.set_exception exc q w)) = None /\
     (forall f, DataQueue._waiter q = Some f -> future_state w f = Some Pending ->
        future_state (snd (DataQueue.set_exception exc q w)) f
        = Some (Failed exc))) /\
  (forall (item : Type) (f : fut) (q : DataQueue.t item) (w : World),
     future_state w f = Some (Failed exc) ->
     exists q', DataQueue.resume f q w = DataQueue.Raise exc q' w /\
                DataQueue._exception q' = DataQueue._exception q) /\
  (forall (item : Type) (q : DataQueue.t item) (w : World),
     DataQueue._exception q = Some exc ->
     (DataQueue._buffer q = [] -> DataQueue.read q w = DataQueue.Raise exc q w) /\
     (forall data size rest,
        DataQueue._buffer q = (data, size) :: rest ->
        DataQueue.read q w
        = DataQueue.Return data
            (DataQueue.mk (DataQueue._eof q) (DataQueue._waiter q) (Some exc)
               (DataQueue._size q - size) rest) w)) /\
  (forall (item : Type) (q : DataQueue.t item) (w : World),
     (forall data size,
        DataQueue._exception
          (DataQueue.final_state (DataQueue.feed_data data size q w))
        = DataQueue._exception q) /\
     DataQueue._exception (DataQueue.final_state (DataQueue.feed_eof q w))
     = DataQueue._exception q /\
     DataQueue._exception (DataQueue.final_state (DataQueue.read q w))
     = DataQueue._exception q /\
     (forall f,
        DataQueue._exception (DataQueue.final_state (DataQueue.resume f q w))
        = DataQueue._exception q)).
Proof.
  split; [intros; apply set_exception_idle; assumption |].
  split; [intros; apply set_exception_wakes; assumption |].
  split; [intros; apply resume_failed; assumption |].
  split; [intros; apply reads_replay; assumption |].
  split.
  { intros s w.
    repeat split; intros;
      auto using feed_data_keeps, feed_eof_keeps, unread_data_keeps, read_keeps,
        readany_keeps, readline_keeps, readexactly_keeps, read_nowait_keeps,
        resume_keeps.
    eapply set_exception_stores; eauto. }
  split.
  { intros item q w. destruct (dq_set_exception_spec item exc q w) as (H1 & H2 & _ & H4).
    auto. }
  split; [intros; apply dq_resume_failed; assumption |].
  split.
  { intros item q w Hex. split.
    - intros Hb. apply dq_read_empty_raises; assumption.
    - intros data size rest Hb. rewrite <- Hex. apply dq_read_buffered_first. exact Hb. }
  intros item q w. apply dq_keeps.
Qed.

Lemma stored_exception_is_replayed_witness :
  readline (set_exception_field (Some (TransportError 1)) (__init__ 16)) idle_world
  = Raise (TransportError 1)
      (set_exception_field (Some (TransportError 1)) (__init__ 16)) idle_world.
Proof.
  apply (stored_exception_is_replayed (TransportError 1)). reflexivity.
Defined.

(** The claim fails for [DataQueue]: after [set_exception], a [read] still
    returns the item that was queued before. *)
Lemma dq_read_after_set_exception_returns_item :
  exists q1 q2,
    DataQueue.feed_data 7%nat 1 DataQueue.__init__ idle_world
    = DataQueue.Return tt q1 idle_world /\
    DataQueue.set_exception (TransportError 1) q1 idle_world = (q2, idle_world) /\
    DataQueue._exception q2 = Some (TransportError 1) /\
    DataQueue.read q2 idle_world
    = DataQueue.Return 7%nat
        (DataQueue.mk false None (Some (TransportError 1)) 0 []) idle_world /\
    ~ (exists q' w',
         DataQueue.read q2 idle_world
         = DataQueue.Raise (TransportError 1) q' w').
Proof.
  eexists. eexists. split; [reflexivity |]. split; [reflexivity |].
  split; [reflexivity |]. split; [reflexivity |].
  intros (q' & w' & H). discriminate.
Qed.

End DataQueueFacts.

(** * Flow control *)

Module FlowControlFacts.
Import StreamReader StreamReaderFacts.








End FlowControlFacts.

(** * The payload registry *)

Module PayloadFacts.
Import Payload.

Section Helpers.

Variable headers : Type.
Variable content_type_in : headers -> option string.
Variable parse_mimetype_charset : option string -> option string.
Variable encode : string -> text -> exn + bytes.
Variable io_payload :
  adapter -> object -> kwargs headers -> exn + payload headers.

Let get := get content_type_in parse_mimetype_charset encode io_payload.
Let construct :=
  construct content_type_in parse_mimetype_charset encode io_payload.
Let registry_get := get PAYLOAD_REGISTRY.

Lemma first_match_app (before : registry) (ctor : adapter)
  (type : list klass) (after : registry) (o : object) :
  (forall c t, In (c, t) before -> isinstance o t = false) ->
  isinstance o type = true ->
  first_match (before ++ (ctor, type) :: after) o = Some ctor.
Proof.
  induction before as [| [c t] before IH]; intros Hno Hyes; simpl.
  - rewrite Hyes. reflexivity.
  - rewrite (Hno c t) by (left; reflexivity).
    apply IH; [| exact Hyes]. intros c' t' Hin. apply (Hno c' t'). right. exact Hin.
Qed.

Lemma first_match_none (r : registry) (o : object) :
  (forall c t, In (c, t) r -> isinstance o t = false) ->
  first_match r o = None.
Proof.
  induction r as [| [c t] r IH]; intros Hno; simpl; [reflexivity |].
  rewrite (Hno c t) by (left; reflexivity).
  apply IH. intros c' t' Hin. apply (Hno c' t'). right. exact Hin.
Qed.

(** A pair registered later never takes over from one that matches
    already. *)
Lemma register_keeps_earlier (r : registry) (ctor ctor' : adapter)
  (type : list klass) (o : object) :
  first_match r o = Some ctor ->
  first_match (register ctor' type r) o = Some ctor.
Proof.
  unfold register. induction r as [| [c t] r IH]; simpl; [discriminate |].
  destruct (isinstance o t); [auto | exact IH].
Qed.

(** C9.  [PayloadRegistry.get] returns an adapter as it is; for another
    object it calls the constructor of the first registered pair, in
    registration order, whose type matches, and raises [LookupError] when
    none does.  With the registrations of the module: [bytes], [bytearray]
    and [memoryview] objects get a [BytesPayload] holding the object, with
    its length as size and [application/octet-stream] as content type; a
    [str] gets a [StringPayload] holding the text encoded with the charset
    of [text/plain; charset=utf-8], that is UTF-8, when no content type is
    given; an [int], [None], a [dict] or a bare [object] is refused with
    [LookupError]. *)
Theorem registry_resolves_first_match :
  parse_mimetype_charset (Some default_text_type) = Some "utf-8"%string ->
  (forall r p kw, get r (Adapted p) kw = inr p) /\
  (forall before ctor type after o kw,
     (forall c t, In (c, t) before -> isinstance o t = false) ->
     isinstance o type = true ->
     get (before ++ (ctor, type) :: after) (Raw headers o) kw = construct ctor o kw) /\
  (forall r o kw,
     (forall c t, In (c, t) r -> isinstance o t = false) ->
     get r (Raw headers o) kw = inl LookupError) /\
  (forall k data,
     In k [bytes_; bytearray_; memoryview_] ->
     registry_get (Raw headers (Buffer k data)) (no_kwargs headers)
     = inr (mkPayload BytesPayload (Buffer k data) None None None
              (Some "application/octet-stream"%string) (Some (len data)))) /\
  (forall s encoded,
     encode "utf-8" s = inr encoded ->
     registry_get (Raw headers (Text s)) (no_kwargs headers)
     = inr (mkPayload StringPayload (Buffer bytes_ encoded) (Some "utf-8"%string)
              None None (Some default_text_type) (Some (len encoded)))) /\
  (forall s e,
     encode "utf-8" s = inl e ->
     registry_get (Raw headers (Text s)) (no_kwargs headers) = inl e) /\
  (forall k id kw,
     In k [int_; NoneType_; dict_; object_] ->
     registry_get (Raw headers (Handle k id)) kw = inl LookupError).
Proof.
  intros Hparse.
  split; [reflexivity |].
  split.
  { intros before ctor type after o kw Hno Hyes. unfold get, Payload.get.
    rewrite (first_match_app before ctor type after o Hno Hyes). reflexivity. }
  split.
  { intros r o kw Hno. unfold get, Payload.get.
    rewrite (first_match_none r o Hno). reflexivity. }
  split.
  { intros k data Hk. simpl in Hk.
    destruct Hk as [<- | [<- | [<- | []]]]; reflexivity. }
  split.
  { intros s encoded Henc. unfold registry_get, get, Payload.get. simpl.
    unfold StringPayload__init__. simpl. rewrite Hparse, Henc. reflexivity. }
  split.
  { intros s e Henc. unfold registry_get, get, Payload.get. simpl.
    unfold StringPayload__init__. simpl. rewrite Hparse, Henc. reflexivity. }
  intros k id kw Hk. simpl in Hk.
  destruct Hk as [<- | [<- | [<- | [<- | []]]]]; reflexivity.
Qed.

End Helpers.

Lemma registry_resolves_first_match_witness :
  get (fun _ : unit => None) charset_of ascii_encode no_io PAYLOAD_REGISTRY
    (Raw unit (Text [104; 105]%N)) (no_kwargs unit)
  = inr (mkPayload StringPayload (Buffer bytes_ [x68; x69]) (Some "utf-8"%string)
           None None (Some default_text_type) (Some 2)).
Proof.
  apply (registry_resolves_first_match unit (fun _ : unit => None) charset_of
           ascii_encode no_io eq_refl).
  reflexivity.
Defined.

End PayloadFacts.

Module StreamWriterOptionsFacts.
Import StreamWriterOptions.

Section Platform.

Variable has_CORK : bool.

Lemma set_tcp_nodelay_consistent (value : bool) (self : t) :
  consistent has_CORK self -> consistent has_CORK (set_tcp_nodelay has_CORK value self).
Proof.
  unfold consistent, set_tcp_nodelay. intros [H Hc].
  destruct self as [nd ck [sock |]]; simpl in *.
  - destruct (Bool.eqb nd value) eqn:E; [auto |].
    destruct (negb (is_inet (sock_family sock))); [auto |].
    destruct ck; simpl.
    + rewrite (Hc eq_refl). simpl.
      destruct (setsockopt TCP_CORK false sock) as [sock1 |]; simpl; [| auto].
      destruct (setsockopt TCP_NODELAY value sock1); simpl;
        (split; [apply andb_false_r | discriminate]).
    + destruct (setsockopt TCP_NODELAY value sock); simpl;
        (split; [apply andb_false_r | discriminate]).
  - destruct (Bool.eqb nd value); auto.
Qed.

Lemma set_tcp_cork_consistent (value : bool) (self : t) :
  consistent has_CORK self -> consistent has_CORK (set_tcp_cork has_CORK value self).
Proof.
  unfold consistent, set_tcp_cork. intros [H Hc].
  destruct self as [nd ck [sock |]]; simpl in *.
  - destruct (Bool.eqb ck value) eqn:E; [auto |].
    destruct (negb (is_inet (sock_family sock))); [auto |].
    destruct nd; simpl.
    + destruct (setsockopt TCP_NODELAY false sock) as [sock1 |]; simpl; [| auto].
      destruct has_CORK eqn:Hk; simpl; [| auto].
      destruct (setsockopt TCP_CORK value sock1); simpl; auto.
    + destruct has_CORK eqn:Hk; simpl; [| auto].
      destruct (setsockopt TCP_CORK value sock); simpl; auto.
  - destruct (Bool.eqb ck value); auto.
Qed.

Lemma apply_setters_consistent (cs : list setter) :
  forall self, consistent has_CORK self -> consistent has_CORK (apply_setters has_CORK cs self).
Proof.
  unfold apply_setters.
  induction cs as [| c cs IH]; intros self H; simpl; [exact H |].
  apply IH. destruct c; simpl;
    [apply set_tcp_nodelay_consistent | apply set_tcp_cork_consistent]; exact H.
Qed.

(** X1.  Whatever sequence of [set_tcp_nodelay] / [set_tcp_cork] calls a
    new writer receives, and whenever its socket starts raising [OSError],
    the two flags are never both set.  Without a socket, and on a socket
    that is not AF_INET or AF_INET6, the setters change nothing.  On an
    INET socket that takes the calls, turning one option on leaves its flag
    set and the other flag clear (on a platform that has [CORK], for the
    cork). *)
Theorem tcp_nodelay_and_cork_never_both :
  (forall (sock : option socket) (cs : list setter),
     let self := apply_setters has_CORK cs (__init__ sock) in
     _tcp_nodelay self && _tcp_cork self = false) /\
  (forall (c : setter) (nd ck : bool),
     apply_setter has_CORK c (mk nd ck None) = mk nd ck None) /\
  (forall (c : setter) (nd ck : bool) (calls : list (sockopt * bool))
          (good : option nat),
     apply_setter has_CORK c (mk nd ck (Some (mkSocket AF_UNIX calls good)))
     = mk nd ck (Some (mkSocket AF_UNIX calls good))) /\
  (forall (fam : family) (calls : list (sockopt * bool)) (ck : bool),
     is_inet fam = true -> (ck = true -> has_CORK = true) ->
     let self := set_tcp_nodelay has_CORK true
                   (mk false ck (Some (mkSocket fam calls None))) in
     _tcp_nodelay self = true /\ _tcp_cork self = false) /\
  (forall (fam : family) (calls : list (sockopt * bool)) (nd : bool),
     is_inet fam = true -> has_CORK = true ->
     let self := set_tcp_cork has_CORK true
                   (mk nd false (Some (mkSocket fam calls None))) in
     _tcp_cork self = true /\ _tcp_nodelay self = false).
Proof.
  split; [| split; [| split; [| split]]].
  - intros sock cs. apply (apply_setters_consistent cs (__init__ sock)).
    split; [reflexivity | discriminate].
  - intros [v | v] nd ck; simpl; unfold set_tcp_nodelay, set_tcp_cork; simpl;
      [destruct (Bool.eqb nd v) | destruct (Bool.eqb ck v)]; reflexivity.
  - intros [v | v] nd ck calls good; simpl;
      unfold set_tcp_nodelay, set_tcp_cork; simpl;
      [destruct (Bool.eqb nd v) | destruct (Bool.eqb ck v)]; reflexivity.
  - intros fam calls ck Hf Hc. unfold set_tcp_nodelay. simpl. rewrite Hf. simpl.
    destruct ck; simpl; [rewrite (Hc eq_refl); simpl |]; split; reflexivity.
  - intros fam calls nd Hf Hk. unfold set_tcp_cork. simpl. rewrite Hf. simpl.
    destruct nd; simpl; rewrite Hk; simpl; split; reflexivity.
Qed.

End Platform.

Lemma tcp_nodelay_and_cork_never_both_witness :
  let self := set_tcp_cork true true
                (mk true false (Some (mkSocket AF_INET [] None))) in
  _tcp_cork self = true /\ _tcp_nodelay self = false.
Proof.
  apply (tcp_nodelay_and_cork_never_both true); reflexivity.
Defined.

End StreamWriterOptionsFacts.

(** * More about DataQueue and ChunksQueue *)

Module DataQueueMore.

Section Items.

Variable item : Type.

Lemma total_size_app (a b : list (item * Z)) :
  DataQueueRuns.total_size (a ++ b)
  = DataQueueRuns.total_size a + DataQueueRuns.total_size b.
Proof.
  unfold DataQueueRuns.total_size. induction a as [| x a IH]; simpl; [reflexivity |].
  rewrite IH. lia.
Qed.

Lemma feed_all_spec (items : list (item * Z)) :
  forall (q : DataQueue.t item) (w : World),
    DataQueue._waiter q = None ->
    DataQueueRuns.feed_all items q w
    = DataQueue.Return tt
        (DataQueue.mk (DataQueue._eof q) None (DataQueue._exception q)
           (DataQueue._size q + DataQueueRuns.total_size items)
           (DataQueue._buffer q ++ items)) w.
Proof.
  induction items as [| [data size] items IH]; intros q w Hw; simpl.
  - unfold DataQueueRuns.total_size. simpl. rewrite Z.add_0_r, app_nil_r.
    destruct q; simpl in *; subst; reflexivity.
  - rewrite (DataQueueFacts.dq_feed_data_idle item data size q w Hw).
    rewrite IH by reflexivity. simpl.
    change (DataQueueRuns.total_size ((data, size) :: items))
      with (size + DataQueueRuns.total_size items).
    rewrite <- app_assoc. simpl. f_equal. f_equal. lia.
Qed.

Lemma reads_spec (front : list (item * Z)) :
  forall (back : list (item * Z)) (q : DataQueue.t item) (w : World),
    DataQueue._buffer q = front ++ back ->
    DataQueueRuns.reads (length front) q w
    = Some (map fst front,
            DataQueue.mk (DataQueue._eof q) (DataQueue._waiter q)
              (DataQueue._exception q)
              (DataQueue._size q - DataQueueRuns.total_size front) back,
            w).
Proof.
  induction front as [| [data size] front IH]; intros back q w Hb; simpl.
  - unfold DataQueueRuns.total_size. simpl. rewrite Z.sub_0_r.
    destruct q; simpl in *; subst; reflexivity.
  - rewrite (DataQueueFacts.dq_read_buffered_first item q w data size
               (front ++ back) Hb).
    rewrite (IH back) by reflexivity. simpl.
    change (DataQueueRuns.total_size ((data, size) :: front))
      with (size + DataQueueRuns.total_size front).
    rewrite Z.sub_add_distr. reflexivity.
Qed.

(** X2.  A queue nobody waits on whose [_size] is the sum of the declared
    sizes of its buffered items: after [feed_data] for each of [items], the
    buffer holds the old items followed by the new ones and [_size] is again
    the sum; [read] then hands out the buffered items one by one in the
    order they were fed, taking each item's declared size off [_size], so
    that [_size] is 0 when the buffer is empty; this holds before and after
    [feed_eof]. *)
Theorem items_come_out_in_order
  (items : list (item * Z)) (q : DataQueue.t item) (w : World) :
  DataQueue._waiter q = None ->
  DataQueue._size q = DataQueueRuns.total_size (DataQueue._buffer q) ->
  exists q1,
    DataQueueRuns.feed_all items q w = DataQueue.Return tt q1 w /\
    DataQueue._buffer q1 = DataQueue._buffer q ++ items /\
    DataQueue._size q1 = DataQueueRuns.total_size (DataQueue._buffer q1) /\
    forall front back,
      DataQueue._buffer q1 = front ++ back ->
      exists q2,
        DataQueueRuns.reads (length front) q1 w = Some (map fst front, q2, w) /\
        DataQueue._buffer q2 = back /\
        DataQueue._size q2 = DataQueueRuns.total_size back.
Proof.
  intros Hw Hsz. eexists. split; [apply feed_all_spec; exact Hw |].
  simpl. split; [reflexivity |]. split; [rewrite total_size_app; lia |].
  intros front back Hb. eexists. split; [apply reads_spec; exact Hb |].
  simpl. split; [reflexivity |].
  rewrite Hsz. rewrite <- total_size_app, Hb, total_size_app. lia.
Qed.

End Items.

Lemma items_come_out_in_order_witness :
  let items := [(5%nat, 2); (6%nat, 3)] in
  let q := @DataQueue.__init__ nat in
  exists q1,
    DataQueueRuns.feed_all items q idle_world = DataQueue.Return tt q1 idle_world /\
    DataQueue._buffer q1 = DataQueue._buffer q ++ items /\
    DataQueue._size q1 = DataQueueRuns.total_size (DataQueue._buffer q1) /\
    forall front back,
      DataQueue._buffer q1 = front ++ back ->
      exists q2,
        DataQueueRuns.reads (length front) q1 idle_world
        = Some (map fst front, q2, idle_world) /\
        DataQueue._buffer q2 = back /\
        DataQueue._size q2 = DataQueueRuns.total_size back.
Proof.
  intros items q.
  apply (items_come_out_in_order nat items q idle_world); reflexivity.
Defined.

(** X3.  On a queue with no item buffered that has seen [feed_eof] and has
    no stored exception, [DataQueue.read] raises [EofStream] and leaves the
    queue unchanged, while [ChunksQueue.read] returns [b''] there; on a
    queue with an item buffered, [ChunksQueue.read] returns what
    [DataQueue.read] returns. *)
Theorem chunks_queue_turns_eof_into_empty (q : DataQueue.t bytes) (w : World) :
  (DataQueue._buffer q = [] -> DataQueue._eof q = true ->
   DataQueue._exception q = None ->
   DataQueue.read q w = DataQueue.Raise EofStream q w /\
   ChunksQueue.read q w = DataQueue.Return [] q w) /\
  (forall data size rest,
     DataQueue._buffer q = (data, size) :: rest ->
     ChunksQueue.read q w = DataQueue.read q w /\
     exists q', DataQueue.read q w = DataQueue.Return data q' w).
Proof.
  split.
  - intros Hb He Hex.
    assert (H : DataQueue.read q w = DataQueue.Raise EofStream q w).
    { unfold DataQueue.read, DataQueue.read_buffered. rewrite Hb, He, Hex. reflexivity. }
    split; [exact H |]. unfold ChunksQueue.read. rewrite H. reflexivity.
  - intros data size rest Hb.
    rewrite (DataQueueFacts.dq_read_buffered_first bytes q w data size rest Hb).
    unfold ChunksQueue.read.
    rewrite (DataQueueFacts.dq_read_buffered_first bytes q w data size rest Hb).
    split; [reflexivity | eauto].
Qed.

Lemma chunks_queue_turns_eof_into_empty_witness :
  let q := DataQueue.mk true None None 0 (@nil (bytes * Z)) in
  DataQueue.read q idle_world = DataQueue.Raise EofStream q idle_world /\
  ChunksQueue.read q idle_world = DataQueue.Return [] q idle_world.
Proof.
  intros q.
  apply (chunks_queue_turns_eof_into_empty q idle_world); reflexivity.
Defined.

End DataQueueMore.

(** * More about flow control *)

Module FlowControlMore.
Import StreamReader.

(** X4.  [FlowControlStreamReader.__init__] and
    [FlowControlDataQueue.__init__] double the limit.  Built on a protocol
    that is not flagged paused they call nothing and leave the allow-pause
    flag unset; built on one that is flagged paused, with a transport that
    takes the call, they make one [resume_reading()] call, clear the
    protocol's flag and set allow-pause; when the transport is missing or
    refuses, the protocol stays flagged paused and allow-pause stays
    unset. *)
Theorem flow_control_init (limit stream_limit : Z) (w : World) :
  let sw := FlowControlStreamReader.__init__ limit stream_limit w in
  let qw := @FlowControlDataQueue.__init__ nat limit w in
  (exists fc, flow_control (fst sw) = Some fc /\ _b_limit fc = limit * 2 /\
     _limit (fst sw) = stream_limit /\ content (fst sw) = [] /\
     FlowControlDataQueue._limit (fst qw) = limit * 2 /\
     snd qw = snd sw /\
     FlowControlDataQueue._allow_pause (fst qw) = _allow_pause fc /\
     match _reading_paused (protocol w), transport (protocol w) with
     | false, _ => snd sw = w /\ _allow_pause fc = false
     | true, Supported =>
         calls (snd sw) = calls w ++ [resume_reading] /\
         _reading_paused (protocol (snd sw)) = false /\ _allow_pause fc = true
     | true, Unsupported =>
         calls (snd sw) = calls w ++ [resume_reading] /\
         _reading_paused (protocol (snd sw)) = true /\ _allow_pause fc = false
     | true, NoTransport => snd sw = w /\ _allow_pause fc = false
     end).
Proof.
  unfold FlowControlStreamReader.__init__, FlowControlDataQueue.__init__, try_call.
  destruct w as [fs [paused tr] cs]. simpl.
  destruct paused, tr; simpl; eexists; repeat split.
Qed.

(** X5.  The size check after a read cannot fail and cannot flip the
    protocol's flag when the transport does not cooperate: without a
    transport it changes nothing at all, and with a transport that raises
    [NotImplementedError] it only adds the attempted call.  In no case does
    it touch the futures or the reader. *)
Theorem check_buffer_size_without_support
  (fc : FlowControl) (s : t) (w : World) :
  (transport (protocol w) = NoTransport -> _check_buffer_size fc s w = w) /\
  (transport (protocol w) = Unsupported ->
   protocol (_check_buffer_size fc s w) = protocol w /\
   (calls (_check_buffer_size fc s w) = calls w \/
    exists c, calls (_check_buffer_size fc s w) = calls w ++ [c])) /\
  futures (_check_buffer_size fc s w) = futures w /\
  transport (protocol (_check_buffer_size fc s w)) = transport (protocol w).
Proof.
  unfold _check_buffer_size, try_call.
  destruct w as [fs [paused tr] cs]. simpl.
  destruct paused, tr, (_buffer_size s <? _b_limit fc),
    (_buffer_size s >? _b_limit fc); simpl;
    repeat split; try discriminate; eauto.
Qed.

Lemma check_buffer_size_without_support_witness :
  let w := mkWorld [] (mkProtocol true NoTransport) [] in
  let fc := mkFlowControl 32 true in
  _check_buffer_size fc (__init__ 16) w = w.
Proof.
  intros w fc.
  apply (check_buffer_size_without_support fc (__init__ 16) w). reflexivity.
Defined.

End FlowControlMore.

(** * More about the payload registry *)

Module PayloadMore.
Import Payload.

(** X6.  With the registrations of the module, an object is given the
    adapter of the most specific registered class it belongs to: the
    registrations for [StringIO], [TextIOBase], [BytesIO] and the buffered
    readers come before the one for [IOBase] and are not shadowed by it,
    and subclasses of [StreamReader] and [DataQueue] resolve like their base
    class. *)
Theorem registry_prefers_specific_classes (id : nat) :
  first_match PAYLOAD_REGISTRY (Handle StringIO_ id) = Some StringIOPayload /\
  first_match PAYLOAD_REGISTRY (Handle TextIOWrapper_ id) = Some TextIOPayload /\
  first_match PAYLOAD_REGISTRY (Handle TextIOBase_ id) = Some TextIOPayload /\
  first_match PAYLOAD_REGISTRY (Handle BytesIO_ id) = Some BytesIOPayload /\
  first_match PAYLOAD_REGISTRY (Handle BufferedReader_ id)
  = Some BufferedReaderPayload /\
  first_match PAYLOAD_REGISTRY (Handle BufferedRandom_ id)
  = Some BufferedReaderPayload /\
  first_match PAYLOAD_REGISTRY (Handle BufferedIOBase_ id) = Some IOBasePayload /\
  first_match PAYLOAD_REGISTRY (Handle FileIO_ id) = Some IOBasePayload /\
  first_match PAYLOAD_REGISTRY (Handle IOBase_ id) = Some IOBasePayload /\
  first_match PAYLOAD_REGISTRY (Handle asyncio_StreamReader_ id)
  = Some StreamReaderPayload /\
  first_match PAYLOAD_REGISTRY (Handle StreamReader_ id)
  = Some StreamReaderPayload /\
  first_match PAYLOAD_REGISTRY (Handle FlowControlStreamReader_ id)
  = Some StreamReaderPayload /\
  first_match PAYLOAD_REGISTRY (Handle DataQueue_ id) = Some DataQueuePayload /\
  first_match PAYLOAD_REGISTRY (Handle ChunksQueue_ id) = Some DataQueuePayload /\
  first_match PAYLOAD_REGISTRY (Handle FlowControlChunksQueue_ id)
  = Some DataQueuePayload.
Proof. repeat split. Qed.

(** X7.  Registration order decides: a pair registered later never takes an
    object away from an earlier pair that matches it, and it is chosen
    exactly for the objects of its type that no earlier pair matches. *)
Theorem later_registration_never_shadows
  (r : registry) (ctor : adapter) (type : list klass) (o : object) :
  (forall earlier, first_match r o = Some earlier ->
                   first_match (register ctor type r) o = Some earlier) /\
  (first_match r o = None ->
   first_match (register ctor type r) o
   = if isinstance o type then Some ctor else None).
Proof.
  unfold register. induction r as [| [c t] r [IH1 IH2]]; simpl.
  - split; [discriminate | reflexivity].
  - destruct (isinstance o t); [split; [auto | discriminate] |].
    split; assumption.
Qed.

Lemma later_registration_never_shadows_witness :
  let o := Handle BytesIO_ 0 in
  first_match (register IOBasePayload [BytesIO_] PAYLOAD_REGISTRY) o
  = Some BytesIOPayload.
Proof.
  intros o.
  apply (later_registration_never_shadows PAYLOAD_REGISTRY IOBasePayload
           [BytesIO_] o).
  reflexivity.
Defined.

End PayloadMore.

(** * Writing a file-like payload *)

Module IOBasePayloadFacts.
Import IOBasePayload StreamReaderFacts.

Lemma write_loop_returns (fuel : nat) :
  forall (limit : Z) (chunk : bytes) (f : file) (wr : writer),
    0 < limit -> closed f = false ->
    (length (remaining f) < fuel)%nat \/ chunk = [] ->
    exists e f' wr',
      write_loop fuel limit chunk f wr = Some (e, f', wr') /\
      closed f' = false /\
      (good_for wr = None ->
       (chunk = [] -> remaining f = []) -> len chunk <= limit ->
       e = None /\ remaining f' = [] /\ good_for wr' = None /\
       exists pieces,
         written wr' = written wr ++ pieces /\
         concat pieces = chunk ++ remaining f /\
         Forall (fun piece => 0 < len piece <= limit) pieces).
Proof.
  induction fuel as [| fuel IH]; intros limit chunk f wr Hlim Hopen Hfuel.
  - destruct Hfuel as [Hfuel | ->]; [lia |]. simpl.
    exists None, f, wr. split; [reflexivity |]. split; [exact Hopen |].
    intros Hgood Hempty _. repeat split; auto.
    exists []. rewrite app_nil_r, (Hempty eq_refl). repeat split. constructor.
  - destruct chunk as [| x chunk'] eqn:Hc.
    + simpl. exists None, f, wr. split; [reflexivity |]. split; [exact Hopen |].
      intros Hgood Hempty _. repeat split; auto.
      exists []. rewrite app_nil_r, (Hempty eq_refl). repeat split. constructor.
    + rewrite <- Hc. assert (Hne : chunk <> []) by (subst; discriminate).
      assert (Ht : truthy chunk = true) by (subst; reflexivity).
      destruct Hfuel as [Hfuel | Hnil]; [| congruence].
      simpl write_loop. rewrite Ht.
      destruct (writer_write chunk wr) as [e | wr1] eqn:Hw.
      * exists (Some e), f, wr. split; [reflexivity |]. split; [exact Hopen |].
        intros Hgood. unfold writer_write in Hw. rewrite Hgood in Hw. discriminate.
      * unfold file_read. rewrite Hopen.
        set (f1 := mkFile (skipn (Z.to_nat limit) (remaining f)) false).
        set (chunk1 := firstn (Z.to_nat limit) (remaining f)).
        assert (Hfuel1 : (length (remaining f1) < fuel)%nat \/ chunk1 = []).
        { unfold f1, chunk1. simpl. destruct (remaining f) as [| y rem] eqn:Hr.
          - right. apply firstn_nil.
          - left. rewrite length_skipn. simpl in Hfuel. simpl length.
            assert (0 < Z.to_nat limit)%nat by lia. lia. }
        destruct (IH limit chunk1 f1 wr1 Hlim eq_refl Hfuel1)
          as (e & f' & wr' & Hrun & Hopen' & Hgoodcase).
        exists e, f', wr'. split; [exact Hrun |]. split; [exact Hopen' |].
        intros Hgood _ Hlen.
        assert (Hwr1 : wr1 = mkWriter (written wr ++ [chunk]) None).
        { unfold writer_write in Hw. rewrite Hgood in Hw. inversion Hw. reflexivity. }
        destruct Hgoodcase as (He & Hrem & Hg' & pieces & Hwritten & Hcat & Hall).
        -- rewrite Hwr1. reflexivity.
        -- unfold chunk1, f1. simpl. intros Hfirst.
           destruct (remaining f) as [| y rem]; [apply skipn_nil |].
           destruct (Z.to_nat limit) eqn:E; [lia | discriminate].
        -- unfold chunk1, len. rewrite length_firstn. lia.
        -- repeat split; auto.
           exists (chunk :: pieces). rewrite Hwritten, Hwr1. simpl.
           rewrite <- app_assoc. split; [reflexivity |].
           split.
           ++ rewrite Hcat. unfold chunk1, f1. simpl. rewrite firstn_skipn. reflexivity.
           ++ constructor; [| exact Hall]. split; [| exact Hlen].
              subst chunk. unfold len. simpl. lia.
Qed.

(** X8.  [IOBasePayload.write], reading [limit > 0] bytes at a time, always
    comes to an end and always leaves the file closed, also when the writer
    fails in the middle.  On an open file and with a writer that does not
    fail, it raises nothing and hands the writer the file's remaining bytes
    in order, in non-empty chunks of at most [limit] bytes.  On a file that
    is already closed, the first [read] raises [ValueError] and nothing is
    written. *)
Theorem iobase_write_streams_and_closes (limit : Z) (f : file) (wr : writer) :
  0 < limit ->
  exists e f' wr',
    write limit f wr = Some (e, f', wr') /\
    closed f' = true /\
    (closed f = false -> good_for wr = None ->
     e = None /\ remaining f' = [] /\
     exists pieces,
       written wr' = written wr ++ pieces /\
       concat pieces = remaining f /\
       Forall (fun piece => 0 < len piece <= limit) pieces) /\
    (closed f = true ->
     e = Some (ValueError "I/O operation on closed file") /\ wr' = wr).
Proof.
  intros Hlim. unfold write, file_read.
  destruct (closed f) eqn:Hopen.
  - exists (Some (ValueError "I/O operation on closed file")), (close f), wr.
    split; [reflexivity |]. split; [reflexivity |].
    split; [discriminate | auto].
  - set (f1 := mkFile (skipn (Z.to_nat limit) (remaining f)) false).
    set (chunk1 := firstn (Z.to_nat limit) (remaining f)).
    destruct (write_loop_returns (S (length (remaining f))) limit chunk1 f1 wr
                Hlim eq_refl)
      as (e & f' & wr' & Hrun & Hopen' & Hgoodcase).
    { left. unfold f1. simpl. rewrite length_skipn. lia. }
    rewrite Hrun. exists e, (close f'), wr'.
    split; [reflexivity |]. split; [reflexivity |].
    split; [| discriminate].
    intros _ Hgood.
    destruct (Hgoodcase Hgood) as (He & Hrem & _ & pieces & Hwritten & Hcat & Hall).
    + unfold chunk1, f1. simpl. intros Hfirst.
      destruct (remaining f) as [| y rem]; [apply skipn_nil |].
      destruct (Z.to_nat limit) eqn:E; [lia | discriminate].
    + unfold chunk1, len. rewrite length_firstn. lia.
    + repeat split; auto. exists pieces. repeat split; auto.
      rewrite Hcat. unfold chunk1, f1. simpl. apply firstn_skipn.
Qed.

Lemma iobase_write_streams_and_closes_witness :
  exists e f' wr',
    write 2 (mkFile [x61; x62; x63] false) (mkWriter [] (Some 1%nat))
    = Some (e, f', wr') /\
    closed f' = true /\
    (closed (mkFile [x61; x62; x63] false) = false ->
     good_for (mkWriter [] (Some 1%nat)) = None ->
     e = None /\ remaining f' = [] /\
     exists pieces,
       written wr' = written (mkWriter [] (Some 1%nat)) ++ pieces /\
       concat pieces = remaining (mkFile [x61; x62; x63] false) /\
       Forall (fun piece => 0 < len piece <= 2) pieces) /\
    (closed (mkFile [x61; x62; x63] false) = true ->
     e = Some (ValueError "I/O operation on closed file") /\
     wr' = mkWriter [] (Some 1%nat)).
Proof.
  apply (iobase_write_streams_and_closes 2 (mkFile [x61; x62; x63] false)
           (mkWriter [] (Some 1%nat))).
  lia.
Defined.

End IOBasePayloadFacts.

(** * More about StreamReader *)

Module StreamReaderMore.
Import StreamReader StreamReaderFacts StreamReaderInvariant.

(** ** The representation invariant is kept *)

Lemma keeps_wf_overridden (o : outcome bytes) :
  keeps_wf o -> keeps_wf (overridden o).
Proof.
  unfold keeps_wf. intros H s' Hf. apply H.
  destruct o as [a s0 w0 | | |]; simpl in *; auto.
  destruct (flow_control s0); simpl in *; auto.
Qed.

Lemma _read_nowait_keeps_wf (n : Z) (s : t) (w : World) :
  wf s -> n = -1 \/ 0 < n -> keeps_wf (_read_nowait n s w).
Proof.
  intros Hwf Hn s' Hf.
  destruct (_read_nowait_spec n s w Hwf Hn) as (s1 & Hrun & Hwf1 & _).
  rewrite Hrun in Hf. inversion Hf; subst. exact Hwf1.
Qed.

Lemma wf_set_waiter (v : option fut) (s : t) : wf s -> wf (set_waiter v s).
Proof. apply wf_ext; reflexivity. Qed.

Lemma _wait_keeps_wf (name : string) (k : frame) (s : t) (w : World) :
  wf s -> keeps_wf (_wait name k s w).
Proof.
  intros Hwf s'. unfold _wait. destruct (_waiter s); simpl; intros H;
    inversion H; subst; auto using wf_set_waiter.
Qed.

Lemma readany_keeps_wf (s : t) (w : World) : wf s -> keeps_wf (readany s w).
Proof.
  intros Hwf. unfold readany. destruct (_exception s).
  - intros s' H. inversion H; subst. exact Hwf.
  - destruct (negb (truthy (_buffer s)) && negb (_eof s));
      [apply _wait_keeps_wf | apply _read_nowait_keeps_wf]; auto.
Qed.

Lemma read_until_eof_keeps_wf (fuel : nat) :
  forall (blocks : list bytes) (o : outcome bytes),
    keeps_wf o -> keeps_wf (read_until_eof fuel blocks o).
Proof.
  induction fuel as [| fuel IH]; intros blocks o Hk;
    destruct o as [block s0 w0 | e s0 w0 | f k s0 w0 |]; simpl;
    try (intros s' H; apply Hk; exact H); try (intros s' H; discriminate).
  - destruct (truthy block); intros s' H; [discriminate | apply Hk; exact H].
  - destruct (truthy block); [| intros s' H; apply Hk; exact H].
    apply IH, keeps_wf_overridden, readany_keeps_wf. apply Hk. reflexivity.
Qed.

Lemma read_keeps_wf (n : Z) (s : t) (w : World) : wf s -> keeps_wf (read n s w).
Proof.
  intros Hwf. unfold read. destruct (_exception s).
  - intros s' H. inversion H; subst. exact Hwf.
  - pose proof (wf_count_eof_access s Hwf) as Hwf1.
    destruct (n =? 0) eqn:E0; [intros s' H; inversion H; subst; exact Hwf1 |].
    destruct (n <? 0) eqn:E1.
    + apply read_until_eof_keeps_wf, keeps_wf_overridden, readany_keeps_wf. exact Hwf1.
    + apply Z.eqb_neq in E0. apply Z.ltb_ge in E1.
      destruct (negb (truthy (_buffer (count_eof_access s)))
                && negb (_eof (count_eof_access s)));
        [apply _wait_keeps_wf | apply _read_nowait_keeps_wf]; auto.
      right. lia.
Qed.

Lemma readexactly_loop_keeps_wf (fuel : nat) :
  forall (blocks : list bytes) (n : Z) (o : outcome bytes),
    keeps_wf o -> keeps_wf (readexactly_loop fuel blocks n o).
Proof.
  induction fuel as [| fuel IH]; intros blocks n o Hk;
    destruct o as [block s0 w0 | e s0 w0 | f k s0 w0 |]; simpl;
    try (intros s' H; apply Hk; exact H); try (intros s' H; discriminate).
  - destruct (truthy block); [| intros s' H; apply Hk; exact H].
    destruct (n - len block >? 0); intros s' H; [discriminate | apply Hk; exact H].
  - destruct (truthy block); [| intros s' H; apply Hk; exact H].
    destruct (n - len block >? 0); [| intros s' H; apply Hk; exact H].
    apply IH, keeps_wf_overridden, read_keeps_wf. apply Hk. reflexivity.
Qed.

Lemma readexactly_keeps_wf (n : Z) (s : t) (w : World) :
  wf s -> keeps_wf (readexactly n s w).
Proof.
  intros Hwf. unfold readexactly. destruct (_exception s).
  - intros s' H. inversion H; subst. exact Hwf.
  - destruct (n >? 0); [| intros s' H; inversion H; subst; exact Hwf].
    apply readexactly_loop_keeps_wf, keeps_wf_overridden, read_keeps_wf. exact Hwf.
Qed.

Lemma readline_after_scan_keeps_wf (b : bool) (line : list bytes) (size : Z)
  (s : t) (w : World) :
  wf s -> keeps_wf (readline_after_scan b line size s w).
Proof.
  intros Hwf. unfold readline_after_scan.
  destruct (_eof s); [intros s' H; inversion H; subst; exact Hwf |].
  destruct b; [apply _wait_keeps_wf; exact Hwf |].
  intros s' H; inversion H; subst; exact Hwf.
Qed.

(** In a well-formed reader [find] answers [-1] or an index at or after the
    offset, so [readline] asks [_read_nowait_chunk] for [-1] or for a
    positive count. *)
Lemma readline_count (first : bytes) (o : Z) :
  0 <= o < len first ->
  let ichar := find first newline o + 1 in
  (if ichar =? 0 then -1 else ichar - o) = -1 \/
  0 < (if ichar =? 0 then -1 else ichar - o).
Proof.
  intros Ho. unfold find, clamp_index. simpl.
  destruct (o <? 0) eqn:E; [apply Z.ltb_lt in E; lia |].
  rewrite Z.min_l by lia.
  destruct (index_of newline (skipn (Z.to_nat o) first)) as [j |].
  - destruct (o + Z.of_nat j + 1 =? 0) eqn:E0; [left; reflexivity | right; lia].
  - left. reflexivity.
Qed.

Lemma readline_scan_keeps_wf (fuel : nat) :
  forall (line : list bytes) (size : Z) (s : t) (w : World),
    wf s -> keeps_wf (readline_scan fuel line size s w).
Proof.
  induction fuel as [| fuel IH]; intros line size s w Hwf; simpl.
  - destruct (_buffer s); [apply readline_after_scan_keeps_wf; exact Hwf |].
    intros s' H; discriminate.
  - destruct (_buffer s) as [| first rest] eqn:Hb;
      [apply readline_after_scan_keeps_wf; exact Hwf |].
    pose proof Hwf as Hwf0. apply wf_iff in Hwf0. destruct Hwf0 as (_ & _ & Hoff).
    rewrite Hb in Hoff.
    destruct (_read_nowait_chunk_spec
                (if find first newline (_buffer_offset s) + 1 =? 0 then -1
                 else find first newline (_buffer_offset s) + 1 - _buffer_offset s)
                s Hwf) as (data & s1 & Hchunk & _ & Hwf1 & _);
      [rewrite Hb; discriminate | apply (readline_count first _ Hoff) |].
    rewrite Hchunk.
    destruct (size + len data >? _limit s1);
      [intros s' H; inversion H; subst; exact Hwf1 |].
    destruct (find first newline (_buffer_offset s) + 1 =? 0);
      [apply IH | apply readline_after_scan_keeps_wf]; exact Hwf1.
Qed.

Lemma readline_keeps_wf (s : t) (w : World) : wf s -> keeps_wf (readline s w).
Proof.
  intros Hwf. unfold readline. destruct (_exception s).
  - intros s' H. inversion H; subst. exact Hwf.
  - unfold readline_from. apply readline_scan_keeps_wf. exact Hwf.
Qed.

Lemma feed_data_keeps_wf (data : bytes) (s : t) (w : World) :
  wf s -> keeps_wf (feed_data data s w).
Proof.
  intros Hwf s'. unfold feed_data.
  destruct (_eof s); [intros H; inversion H; subst; exact Hwf |].
  destruct (truthy data) eqn:Ht; simpl;
    [| intros H; inversion H; subst; exact Hwf].
  apply truthy_true in Ht. pose proof (wf_fed data s Hwf Ht) as Hwf1.
  destruct (_waiter s) as [f |]; [| intros H; inversion H; subst; exact Hwf1].
  destruct (wake f (Result false) w); intros H; inversion H; subst;
    apply (wf_ext (fed data s)); auto.
Qed.

Lemma flags_keep_wf (s : t) (w : World) :
  wf s ->
  keeps_wf (feed_eof s w) /\ forall exc, keeps_wf (set_exception exc s w).
Proof.
  intros Hwf. split; [| intros exc]; intros s';
    [unfold feed_eof | unfold set_exception]; simpl;
    (destruct (_waiter s) as [f |]; simpl;
     [destruct (wake f _ w) as [w1 |]; simpl |];
     try (destruct (_eof_waiter s) as [g |]; simpl;
          [destruct (wake g _ _); simpl |]);
     intros H; inversion H; subst;
     (eapply wf_ext; [| | | exact Hwf]; reflexivity)).
Qed.

Lemma unread_data_keeps_wf (data : bytes) (s : t) (w : World) :
  wf s -> keeps_wf (unread_data data s w).
Proof.
  intros Hwf s' H. destruct data as [| x data].
  - inversion H; subst. exact Hwf.
  - destruct (unread_data_spec (x :: data) s w Hwf) as (s1 & Hrun & Hwf1 & _);
      [discriminate |].
    rewrite Hrun in H. inversion H; subst. exact Hwf1.
Qed.

Lemma resume_keeps_wf (k : frame) (f : fut) (s : t) (w : World) :
  wf s ->
  match k with
  | in_read n | in_readexactly _ n => 0 < n
  | _ => True
  end ->
  keeps_wf (resume k f s w).
Proof.
  intros Hwf Hk. unfold resume, _wait_resumed.
  pose proof (wf_set_waiter None s Hwf) as Hwf1.
  destruct (future_state w f) as [[| | v | e] |].
  - intros s' H. inversion H; subst. exact Hwf.
  - intros s' H. inversion H; subst. exact Hwf1.
  - destruct k as [n | | line size | blocks | blocks n].
    + apply keeps_wf_overridden, _read_nowait_keeps_wf; auto.
    + apply keeps_wf_overridden, _read_nowait_keeps_wf; auto.
    + apply keeps_wf_overridden. unfold readline_from.
      apply readline_scan_keeps_wf; auto.
    + apply keeps_wf_overridden, read_until_eof_keeps_wf, keeps_wf_overridden,
        _read_nowait_keeps_wf; auto.
    + apply keeps_wf_overridden, readexactly_loop_keeps_wf, keeps_wf_overridden,
        _read_nowait_keeps_wf; auto.
  - intros s' H. inversion H; subst. exact Hwf1.
  - intros s' H. inversion H; subst. exact Hwf.
Qed.

(** X9.  The invariant of the buffer (no empty chunk stored, [_buffer_size]
    equal to the number of unread bytes, the offset inside the first chunk,
    and 0 on an empty deque) holds of a new reader and is kept by every
    producer call, by [unread_data], by every read, whether it returns,
    raises or parks, and by the continuation of a parked read. *)
Theorem buffer_invariant_is_kept (s : t) (w : World) :
  wf s ->
  (forall limit, wf (__init__ limit)) /\
  (forall data, keeps_wf (feed_data data s w)) /\
  keeps_wf (feed_eof s w) /\
  (forall exc, keeps_wf (set_exception exc s w)) /\
  (forall data, keeps_wf (unread_data data s w)) /\
  (forall n, keeps_wf (read n s w)) /\
  keeps_wf (readany s w) /\
  keeps_wf (readline s w) /\
  (forall n, keeps_wf (readexactly n s w)) /\
  (forall n, n = -1 \/ 0 < n -> keeps_wf (read_nowait n s w)) /\
  (forall n f, 0 < n -> keeps_wf (resume (in_read n) f s w)) /\
  (forall f, keeps_wf (resume in_readany f s w)) /\
  (forall line size f, keeps_wf (resume (in_readline line size) f s w)) /\
  (forall blocks f, keeps_wf (resume (in_read_until_eof blocks) f s w)) /\
  (forall blocks n f, 0 < n ->
     keeps_wf (resume (in_readexactly blocks n) f s w)).
Proof.
  intros Hwf.
  split; [intros; apply wf_init |].
  split; [intros; apply feed_data_keeps_wf; exact Hwf |].
  split; [apply flags_keep_wf; exact Hwf |].
  split; [apply flags_keep_wf; exact Hwf |].
  split; [intros; apply unread_data_keeps_wf; exact Hwf |].
  split; [intros; apply read_keeps_wf; exact Hwf |].
  split; [apply readany_keeps_wf; exact Hwf |].
  split; [apply readline_keeps_wf; exact Hwf |].
  split; [intros; apply readexactly_keeps_wf; exact Hwf |].
  split.
  { intros n Hn. unfold read_nowait. destruct (_exception s).
    - intros s' H. inversion H; subst. exact Hwf.
    - destruct (_waiter s) as [f |]; [destruct (negb (done w f)) |];
        try (apply _read_nowait_keeps_wf; assumption).
      intros s' H. inversion H; subst. exact Hwf. }
  split; [intros; apply resume_keeps_wf; assumption |].
  split; [intros; apply resume_keeps_wf; auto |].
  split; [intros; apply resume_keeps_wf; auto |].
  split; [intros; apply resume_keeps_wf; auto |].
  intros; apply resume_keeps_wf; assumption.
Qed.

Lemma buffer_invariant_is_kept_witness :
  keeps_wf (readline (fed [x68; x0a; x69] (__init__ 16)) idle_world).
Proof.
  apply (buffer_invariant_is_kept (fed [x68; x0a; x69] (__init__ 16)) idle_world).
  reflexivity.
Defined.

(** ** read(n) for n < 0 *)



Lemma drained_fields (s : t) :
  _buffer (drained s) = [] /\ _eof (drained s) = _eof s /\
  _waiter (drained s) = _waiter s /\ _eof_waiter (drained s) = _eof_waiter s /\
  _exception (drained s) = _exception s /\
  flow_control (drained s) = flow_control s /\
  total_bytes (drained s) = total_bytes s.
Proof. unfold drained. simpl. auto 10. Qed.




(** ** read_nowait *)

(** X11.  [read_nowait(n)] never parks.  With no stored exception and no
    coroutine still waiting it returns at most [n] of the unread bytes (all
    of them for [n = -1], [b''] from an empty buffer, before EOF too) and
    keeps the rest; with a coroutine still waiting it raises RuntimeError and
    leaves the reader as it was; a stored exception is raised first. *)
Theorem read_nowait_never_waits (n : Z) (s : t) (w : World) :
  wf s -> n = -1 \/ 0 < n ->
  (forall f k s' w', read_nowait n s w <> Yield f k s' w') /\
  (_exception s = None ->
   (forall f, _waiter s = Some f -> done w f = true) ->
   exists s',
     read_nowait n s w = Return (upto n (content s)) s' w /\
     wf s' /\ content s' = beyond n (content s) /\ control s' = control s) /\
  (_exception s = None ->
   forall f, _waiter s = Some f -> done w f = false ->
     read_nowait n s w
     = Raise (RuntimeError
                "Called while some coroutine is waiting for incoming data.")
             s w) /\
  (forall e, _exception s = Some e -> read_nowait n s w = Raise e s w).
Proof.
  intros Hwf Hn.
  destruct (_read_nowait_spec n s w Hwf Hn) as (s1 & Hrun & Hwf1 & Hc1 & Hctl).
  split; [| split; [| split]].
  - intros f k s' w'. unfold read_nowait.
    destruct (_exception s); [discriminate |].
    destruct (_waiter s) as [g |]; [destruct (negb (done w g)) |];
      rewrite ?Hrun; discriminate.
  - intros Hex Hdone. unfold read_nowait. rewrite Hex.
    destruct (_waiter s) as [g |]; [rewrite (Hdone g eq_refl); simpl |];
      exists s1; auto.
  - intros Hex f Hw Hd. unfold read_nowait. rewrite Hex, Hw, Hd. reflexivity.
  - intros e Hex. unfold read_nowait. rewrite Hex. reflexivity.
Qed.

Lemma read_nowait_never_waits_witness :
  let s := fed [x68; x69; x21] (__init__ 16) in
  exists s',
    read_nowait 2 s idle_world = Return (upto 2 (content s)) s' idle_world /\
    wf s' /\ content s' = beyond 2 (content s) /\ control s' = control s.
Proof.
  intros s.
  apply (read_nowait_never_waits 2 s idle_world);
    [reflexivity | lia | reflexivity | intros f H; discriminate H].
Defined.

(** ** total_bytes *)

Lemma feed_data_counts (data : bytes) (s s' : t) (w w' : World) :
  feed_data data s w = Return tt s' w' ->
  total_bytes s' = total_bytes s + len data /\
  _buffer_size s' = _buffer_size s + len data.
Proof.
  unfold feed_data. destruct (_eof s); [discriminate |].
  destruct data as [| x data]; simpl truthy; simpl negb; cbv iota.
  - intros H. inversion H; subst. unfold len. simpl. lia.
  - simpl. destruct (_waiter s) as [f |];
      [destruct (wake f (Result false) w) |];
      intros H; inversion H; subst; simpl; auto.
Qed.

(** X12.  [total_bytes] counts what the producer has fed: after
    [feed_data(c1) ... feed_data(ck)] it, and [_buffer_size] with it, has
    grown by the length of [c1 + ... + ck], whoever was waiting; taking bytes
    out with [_read_nowait] lowers [_buffer_size] by the bytes returned and
    leaves [total_bytes] alone. *)
Theorem total_bytes_counts_what_was_fed (cs : list bytes) :
  forall (s s' : t) (w w' : World),
    feed_all cs s w = Return tt s' w' ->
    total_bytes s' = total_bytes s + len (concat cs) /\
    _buffer_size s' = _buffer_size s + len (concat cs) /\
    forall n, wf s' -> n = -1 \/ 0 < n ->
      exists data s2,
        _read_nowait n s' w' = Return data s2 w' /\
        total_bytes s2 = total_bytes s' /\
        _buffer_size s2 = _buffer_size s' - len data.
Proof.
  induction cs as [| c cs IH]; intros s s' w w' Hrun.
  - simpl in Hrun. inversion Hrun; subst. simpl concat. unfold len at 1 2.
    simpl. split; [lia |]. split; [lia |].
    intros n Hwf Hn.
    destruct (_read_nowait_spec n s' w' Hwf Hn) as (s2 & Hr & Hwf2 & Hc2 & Hctl).
    exists (upto n (content s')), s2. split; [exact Hr |].
    split; [unfold control in Hctl; inversion Hctl; reflexivity |].
    apply wf_iff in Hwf, Hwf2.
    destruct Hwf as (_ & Hsz & _), Hwf2 as (_ & Hsz2 & _).
    rewrite Hsz, Hsz2, Hc2.
    rewrite <- (upto_beyond n (content s')) at 2. rewrite len_app. lia.
  - simpl in Hrun.
    destruct (feed_data c s w) as [[] s1 w1 | | |] eqn:Hfeed; try discriminate.
    destruct (feed_data_counts c s s1 w w1 Hfeed) as [Ht Hs].
    destruct (IH s1 s' w1 w' Hrun) as (Ht' & Hs' & Hread).
    simpl concat. rewrite len_app.
    split; [lia |]. split; [lia | exact Hread].
Qed.

Lemma total_bytes_counts_what_was_fed_witness :
  let cs := [[x68; x69]; []; [x21]] in
  let s := __init__ 16 in
  let s' := fed [x21] (fed [x68; x69] s) in
  total_bytes s' = total_bytes s + len (concat cs).
Proof.
  intros cs s s'.
  apply (total_bytes_counts_what_was_fed cs s s' idle_world idle_world).
  reflexivity.
Defined.

End StreamReaderMore.

(** * StreamWriter: a full cycle of acquire and release *)

Module StreamWriterMore.
Import StreamWriter StreamWriterFacts.

Lemma acquire_all_held (cbs : list callback) :
  forall (queue : list callback) (tr : transport_handle)
         (inv : list (callback * argument)),
    fold_left (fun self cb => acquire cb self) cbs (mk queue false tr inv)
    = mk (queue ++ cbs) false tr inv.
Proof.
  induction cbs as [| cb cbs IH]; intros queue tr inv; simpl.
  - rewrite app_nil_r. reflexivity.
  - unfold acquire at 2. simpl. rewrite IH, <- app_assoc. reflexivity.
Qed.

Lemma release_times_succ (n : nat) :
  forall self, release_times (S n) self = release (release_times n self).
Proof.
  induction n as [| n IH]; intros self; [reflexivity |].
  change (release_times (S (S n)) self)
    with (release_times (S n) (release self)).
  rewrite IH. reflexivity.
Qed.

(** X13.  On a new writer the first [acquire] runs its callback at once
    with the transport; callbacks acquired while the writer is held are
    queued, each [release] runs the oldest of them, and the release after
    the last one makes the writer available again with an empty queue. *)
Theorem acquire_release_cycle (tr : transport_handle) (cb0 : callback)
  (cbs : list callback) :
  let held :=
    fold_left (fun self cb => acquire cb self) cbs (acquire cb0 (__init__ tr)) in
  invoked held = [(cb0, the_transport tr)] /\
  _waiters held = cbs /\
  available held = false /\
  (forall k, (k <= length cbs)%nat ->
     invoked (release_times k held)
     = (cb0, the_transport tr)
       :: map (fun c => (c, the_writer)) (firstn k cbs) /\
     _waiters (release_times k held) = skipn k cbs /\
     available (release_times k held) = false) /\
  release_times (S (length cbs)) held
  = mk [] true tr
       ((cb0, the_transport tr) :: map (fun c => (c, the_writer)) cbs).
Proof.
  intros held.
  assert (Hheld : held = mk cbs false tr [(cb0, the_transport tr)]).
  { unfold held, __init__, acquire at 2. simpl.
    rewrite (acquire_all_held cbs [] tr). reflexivity. }
  rewrite Hheld. clear Hheld held.
  split; [reflexivity |]. split; [reflexivity |]. split; [reflexivity |].
  assert (Hk : forall k, (k <= length cbs)%nat ->
            release_times k (mk cbs false tr [(cb0, the_transport tr)])
            = mk (skipn k cbs) false tr
                 ((cb0, the_transport tr)
                  :: map (fun c => (c, the_writer)) (firstn k cbs))).
  { intros k Hle.
    rewrite <- (firstn_skipn k cbs) at 1.
    replace k with (length (firstn k cbs)) at 1
      by (rewrite length_firstn; lia).
    rewrite release_times_fifo. destruct (firstn k cbs); reflexivity. }
  split.
  - intros k Hle. rewrite (Hk k Hle). simpl. auto.
  - rewrite release_times_succ.
    rewrite (Hk (length cbs)) by lia.
    rewrite skipn_all, firstn_all. reflexivity.
Qed.

End StreamWriterMore.

(** * EmptyStreamReader *)

Module EmptyStreamReaderFacts.
Import StreamReader StreamReaderFacts.

Lemma at_eof_fields (s : t) :
  at_eof s = true -> _eof s = true /\ _buffer s = [].
Proof.
  unfold at_eof. intros H. apply andb_true_iff in H. destruct H as [He Hb].
  apply negb_true_iff, truthy_false in Hb. auto.
Qed.

(** X14.  [EmptyStreamReader] answers as a [StreamReader] does that has
    seen EOF and has nothing buffered, no stored exception and no
    flow control: [read], [readany], [readline] and [read_nowait] give
    [b''], [readexactly(n)] for [n > 0] raises
    [IncompleteReadError(b'', n)], and the flags agree.  The two differ at
    [readexactly(n)] for [n <= 0], where the [StreamReader] returns [b'']. *)
Theorem empty_reader_is_a_reader_at_eof (s : t) (w : World) :
  wf s -> at_eof s = true -> _exception s = None -> flow_control s = None ->
  (forall n,
     EmptyStreamReader.answer_of (read n s w)
     = Some (EmptyStreamReader.read n)) /\
  EmptyStreamReader.answer_of (readany s w) = Some EmptyStreamReader.readany /\
  EmptyStreamReader.answer_of (readline s w) = Some EmptyStreamReader.readline /\
  (forall n, 0 < n ->
     EmptyStreamReader.answer_of (readexactly n s w)
     = Some (EmptyStreamReader.readexactly n)) /\
  (forall n, n <= 0 ->
     EmptyStreamReader.answer_of (readexactly n s w) = Some (inl [])) /\
  (forall n, n = -1 \/ 0 < n ->
     (forall f, _waiter s = Some f -> done w f = true) ->
     EmptyStreamReader.answer_of (read_nowait n s w)
     = Some EmptyStreamReader.read_nowait) /\
  is_eof s = EmptyStreamReader.is_eof /\
  at_eof s = EmptyStreamReader.at_eof /\
  _exception s = EmptyStreamReader.exception.
Proof.
  intros Hwf Hat Hex Hfc.
  destruct (at_eof_fields s Hat) as [He Hb].
  pose proof (content_buffer_nil s Hb) as Hc.
  assert (Hany : forall s0 w0, wf s0 -> _exception s0 = None ->
            _eof s0 = true -> content s0 = [] ->
            readany s0 w0 = Return [] (drained s0) w0).
  { intros s0 w0 Hwf0 Hex0 He0 Hc0.
    rewrite (readany_ready s0 w0 Hwf0 Hex0 (or_intror He0)), Hc0. reflexivity. }
  split; [| split; [| split; [| split; [| split; [| split; [| split]]]]]].
  - intros n. unfold read. rewrite Hex.
    destruct (buffer_count_eof_access s) as (Hb' & He' & _).
    destruct (n =? 0) eqn:E0; [reflexivity |].
    destruct (n <? 0) eqn:E1.
    + unfold self_readany.
      rewrite Hany;
        [| apply wf_count_eof_access; exact Hwf
         | rewrite <- Hex; unfold count_eof_access;
           destruct (_eof s && negb (truthy (_buffer s))); reflexivity
         | congruence
         | rewrite content_count_eof_access; exact Hc].
      rewrite overridden_plain
        by (unfold count_eof_access;
            destruct (_eof s && negb (truthy (_buffer s))); exact Hfc).
      reflexivity.
    + apply Z.eqb_neq in E0. apply Z.ltb_ge in E1.
      rewrite Hb', He', Hb, He. simpl.
      assert (Hn : 0 < n) by lia.
      destruct (_read_nowait_spec n (count_eof_access s) w
                  (wf_count_eof_access s Hwf) (or_intror Hn))
        as (s1 & Hrun & _).
      rewrite Hrun, content_count_eof_access, Hc, upto_nil. reflexivity.
  - rewrite (Hany s w Hwf Hex He Hc). reflexivity.
  - unfold readline, readline_from. rewrite Hex, Hb. simpl.
    rewrite Hb. unfold readline_after_scan. rewrite He. reflexivity.
  - intros n Hn.
    pose proof (readexactly_at_eof n s w Hwf Hex Hfc He Hn) as H.
    unfold readexactly_answer in H. rewrite Hc in H.
    destruct (n <=? len (@nil byte)) eqn:E;
      [apply Z.leb_le in E; unfold len in E; simpl in E; lia |].
    destruct H as (s' & w' & ->). simpl.
    unfold EmptyStreamReader.readexactly, len. simpl.
    rewrite Z.sub_0_r. reflexivity.
  - intros n Hn. unfold readexactly. rewrite Hex.
    destruct (n >? 0) eqn:E; [rewrite Z.gtb_ltb in E; apply Z.ltb_lt in E; lia |].
    reflexivity.
  - intros n Hn Hdone. unfold read_nowait. rewrite Hex.
    destruct (_read_nowait_spec n s w Hwf Hn) as (s1 & Hrun & _).
    destruct (_waiter s) as [f |]; [rewrite (Hdone f eq_refl); simpl |];
      rewrite Hrun, Hc, upto_nil; reflexivity.
  - exact He.
  - split; [exact Hat | exact Hex].
Qed.

Lemma empty_reader_is_a_reader_at_eof_witness :
  let s := set_eof true (__init__ 16) in
  EmptyStreamReader.answer_of (readline s idle_world)
  = Some EmptyStreamReader.readline.
Proof.
  intros s.
  apply (empty_reader_is_a_reader_at_eof s idle_world); reflexivity.
Defined.

End EmptyStreamReaderFacts.

(** * StreamReader.wait_eof *)

Module StreamReaderEofFacts.
Import StreamReader StreamReaderFacts StreamReaderEof.

(** X15.  Before EOF, on a reader that nobody waits on, [wait_eof] parks on
    a new pending future, which it stores in [_eof_waiter]; a second
    [wait_eof] parks on the same future; [feed_data] leaves it pending;
    [feed_eof] completes it, so the parked call returns when stepped, and
    clears [_eof_waiter], after which [wait_eof] returns at once;
    [set_exception] instead makes the parked call raise that exception. *)
Theorem wait_eof_is_woken_by_feed_eof (s : t) (w : World) :
  _eof s = false -> _waiter s = None -> _eof_waiter s = None ->
  let f := length (futures w) in
  let s1 := set_eof_waiter (Some f) s in
  let w1 := set_futures (futures w ++ [Pending]) w in
  wait_eof s w = Waiting f s1 w1 /\
  resume f s1 w1 = Waiting f s1 w1 /\
  wait_eof s1 w1 = Waiting f s1 w1 /\
  (forall data, exists s2,
     feed_data data s1 w1 = Return tt s2 w1 /\
     _eof_waiter s2 = Some f /\ resume f s2 w1 = Waiting f s2 w1) /\
  (exists s2 w2,
     feed_eof s1 w1 = Return tt s2 w2 /\
     _eof_waiter s2 = None /\
     resume f s2 w2 = Returned s2 w2 /\
     wait_eof s2 w2 = Returned s2 w2) /\
  (forall exc, exists s3 w3,
     set_exception exc s1 w1 = Return tt s3 w3 /\
     _eof_waiter s3 = None /\
     resume f s3 w3 = Raised exc s3 w3).
Proof.
  intros He Hw Hew f s1 w1.
  assert (Hf : future_state w1 f = Some Pending)
    by apply future_state_created.
  assert (Hres : resume f s1 w1 = Waiting f s1 w1)
    by (unfold resume; rewrite Hf; reflexivity).
  split; [| split; [| split; [| split; [| split]]]].
  - unfold wait_eof, eof_waiter. rewrite He, Hew. reflexivity.
  - exact Hres.
  - unfold wait_eof, eof_waiter. simpl. rewrite He. reflexivity.
  - intros data.
    rewrite (feed_data_idle data s1 w1) by (simpl; assumption).
    eexists. split; [reflexivity |].
    split; [destruct (truthy data); reflexivity |].
    unfold resume. rewrite Hf. reflexivity.
  - unfold feed_eof. simpl. rewrite Hw. simpl.
    destruct (wake_pending f (Result true) w1 Hf) as [Hwake Hst].
    rewrite Hwake. eexists. eexists. split; [reflexivity |].
    split; [reflexivity |].
    split; [unfold resume; rewrite Hst; reflexivity | reflexivity].
  - intros exc. unfold set_exception. simpl. rewrite Hw. simpl.
    destruct (wake_pending f (Failed exc) w1 Hf) as [Hwake Hst].
    rewrite Hwake. eexists. eexists. split; [reflexivity |].
    split; [reflexivity |].
    unfold resume. rewrite Hst. reflexivity.
Qed.

Lemma wait_eof_is_woken_by_feed_eof_witness :
  let s := fed [x68; x69] (__init__ 16) in
  let w := idle_world in
  let f := length (futures w) in
  let s1 := set_eof_waiter (Some f) s in
  let w1 := set_futures (futures w ++ [Pending]) w in
  wait_eof s w = Waiting f s1 w1.
Proof.
  intros s w f s1 w1.
  apply (wait_eof_is_woken_by_feed_eof s w); reflexivity.
Defined.

End StreamReaderEofFacts.
